(** * Crank-Nicolson propagation of a wave packet: the [WavePacket] engine

    Shallow embedding of the class [WavePacket] of the notebook
    [CBPM_Anas_Roumeih_3766647.ipynb] ([__init__] and
    [evolve_wave_function]), in exact arithmetic: a float is a real number
    of the Standard Library, a [complex128] a pair of reals, a numpy matrix
    a MathComp matrix.  What numpy does outside exact arithmetic (a division
    by zero leaves [inf] or [nan] in an array and only prints a warning) is
    kept as an outcome of its own, [NonFinite]. *)

From HB Require Import structures.
From Stdlib Require Import Reals Lra ClassicalEpsilon FunctionalExtensionality.
From mathcomp Require Import ssreflect ssrfun ssrbool eqtype ssrnat seq choice.
From mathcomp Require Import fintype finfun bigop ssralg ssrint matrix mxalgebra.

Set Implicit Arguments.
Unset Strict Implicit.
Unset Printing Implicit Defensive.

Import GRing.Theory.

Delimit Scope R_scope with coqR.
Local Open Scope ring_scope.

(** ** Floats as real numbers: the algebraic structure of [R] *)

Module RealField.

Definition eqr (x y : R) : bool :=
  if Req_dec_T x y is left _ then true else false.

Lemma eqrP : Equality.axiom eqr.
Proof. by move=> x y; rewrite /eqr; case: Req_dec_T => h; constructor. Qed.

Section ClassicalChoice.

Variable T : Type.

Definition cfind (P : pred T) (n : nat) : option T :=
  match excluded_middle_informative (exists x, P x) with
  | left ex => Some (proj1_sig (constructive_indefinite_description _ ex))
  | right _ => None
  end.

Lemma cfind_correct (P : pred T) n x : cfind P n = Some x -> P x.
Proof.
rewrite /cfind; case: excluded_middle_informative => // ex [<-].
exact: (proj2_sig (constructive_indefinite_description _ ex)).
Qed.

Lemma cfind_complete (P : pred T) : (exists x, P x) -> exists n, cfind P n.
Proof.
by move=> ex; exists 0%N; rewrite /cfind; case: excluded_middle_informative.
Qed.

Lemma cfind_ext (P Q : pred T) : P =1 Q -> cfind P =1 cfind Q.
Proof.
by move=> /functional_extensionality PQ n; rewrite PQ.
Qed.

End ClassicalChoice.

HB.instance Definition _ := hasDecEq.Build R eqrP.
HB.instance Definition _ :=
  hasChoice.Build R (@cfind_correct R) (@cfind_complete R) (@cfind_ext R).

Lemma RplusA : associative Rplus.
Proof. by move=> x y z; rewrite Rplus_assoc. Qed.

Lemma RmultA : associative Rmult.
Proof. by move=> x y z; rewrite Rmult_assoc. Qed.

Lemma RmultDl : left_distributive Rmult Rplus.
Proof. by move=> x y z; rewrite Rmult_plus_distr_r. Qed.

Lemma R1_neq0 : R1 != R0.
Proof. by apply/eqP; exact: R1_neq_R0. Qed.

HB.instance Definition _ :=
  GRing.isZmodule.Build R RplusA Rplus_comm Rplus_0_l Rplus_opp_l.
HB.instance Definition _ :=
  GRing.Zmodule_isComNzRing.Build R RmultA Rmult_comm Rmult_1_l RmultDl R1_neq0.

Lemma RmultVf (x : R) : x != 0 -> Rmult (Rinv x) x = 1.
Proof. by move=> /eqP x0; rewrite Rinv_l. Qed.

HB.instance Definition _ := GRing.ComNzRing_isField.Build R RmultVf Rinv_0.

End RealField.
HB.export RealField.

(** Goals on [R] stated with the ring operations of MathComp are turned
    back into the Standard Library's, where [lra], [nra] and [field] work. *)
Ltac to_R :=
  rewrite /GRing.add /GRing.mul /GRing.opp /GRing.zero /GRing.one /GRing.inv /=.

(** ** [complex128] values: pairs of reals *)

Module Cplx.

Record complex : Type := Complex { real : R; imag : R }.

Definition to_pair (z : complex) : R * R := (real z, imag z).
Definition of_pair (p : R * R) : complex := Complex p.1 p.2.

Lemma to_pairK : cancel to_pair of_pair.
Proof. by case. Qed.

HB.instance Definition _ := Equality.copy complex (can_type to_pairK).
HB.instance Definition _ := Choice.copy complex (can_type to_pairK).

Lemma complex_eq (z w : complex) : real z = real w -> imag z = imag w -> z = w.
Proof. by case: z w => [a b] [c d] /= -> ->. Qed.

Local Open Scope R_scope.

Definition addc (z w : complex) : complex :=
  Complex (real z + real w) (imag z + imag w).
Definition oppc (z : complex) : complex := Complex (- real z) (- imag z).
Definition mulc (z w : complex) : complex :=
  Complex (real z * real w - imag z * imag w)
          (real z * imag w + imag z * real w).
Definition invc (z : complex) : complex :=
  let n2 := real z * real z + imag z * imag z in
  Complex (real z / n2) (- imag z / n2).

Definition C0 : complex := Complex 0 0.
Definition C1 : complex := Complex 1 0.

(** The literal [1j]. *)
Definition Ci : complex := Complex 0 1.

(** numpy's promotion of a float to [complex128]. *)
Definition RtoC (x : R) : complex := Complex x 0.

Ltac cring := intros; apply: complex_eq => /=; ring.

Lemma addcA : associative addc. Proof. by move=> x y z; cring. Qed.
Lemma addcC : commutative addc. Proof. by move=> x y; cring. Qed.
Lemma add0c : left_id C0 addc. Proof. by move=> x; cring. Qed.
Lemma addNc : left_inverse C0 oppc addc. Proof. by move=> x; cring. Qed.
Lemma mulcA : associative mulc. Proof. by move=> x y z; cring. Qed.
Lemma mulcC : commutative mulc. Proof. by move=> x y; cring. Qed.
Lemma mul1c : left_id C1 mulc. Proof. by move=> x; cring. Qed.
Lemma mulcDl : left_distributive mulc addc. Proof. by move=> x y z; cring. Qed.

Lemma C1_neq0 : C1 != C0.
Proof. by apply/eqP => -[]; exact: R1_neq_R0. Qed.

Lemma norm2_gt0 (z : complex) :
  z <> C0 -> 0 < real z * real z + imag z * imag z.
Proof.
case: z => a b /= zN0.
have [a0|aN0] := Req_dec_T a 0; last by nra.
have [b0|bN0] := Req_dec_T b 0; last by nra.
by case: zN0; rewrite a0 b0.
Qed.

HB.instance Definition _ := GRing.isZmodule.Build complex addcA addcC add0c addNc.
HB.instance Definition _ :=
  GRing.Zmodule_isComNzRing.Build complex mulcA mulcC mul1c mulcDl C1_neq0.

Lemma mulVc (z : complex) : z != C0 -> mulc (invc z) z = C1.
Proof.
move=> /eqP /norm2_gt0; case: z => a b /= n2.
by apply: complex_eq => /=; field; lra.
Qed.

Lemma invc0 : invc C0 = C0.
Proof. by apply: complex_eq => /=; rewrite /Rdiv Rmult_0_l // Ropp_0 Rmult_0_l. Qed.

HB.instance Definition _ := GRing.ComNzRing_isField.Build complex mulVc invc0.

(** [RtoC] is a morphism of rings. *)
Lemma RtoC_is_zmod_morphism : zmod_morphism RtoC.
Proof. by move=> x y; apply: complex_eq; rewrite /=; to_R; ring. Qed.

Lemma RtoC_is_monoid_morphism : monoid_morphism RtoC.
Proof. by split=> [|x y] //; apply: complex_eq; rewrite /=; to_R; ring. Qed.

HB.instance Definition _ :=
  GRing.isZmodMorphism.Build R complex RtoC RtoC_is_zmod_morphism.
HB.instance Definition _ :=
  GRing.isMonoidMorphism.Build R complex RtoC RtoC_is_monoid_morphism.

(** Complex conjugation. *)
Definition conjc (z : complex) : complex := Complex (real z) (- imag z)%coqR.

Lemma conjc_is_zmod_morphism : zmod_morphism conjc.
Proof. by move=> x y; apply: complex_eq; rewrite /=; to_R; ring. Qed.

Lemma conjc_is_monoid_morphism : monoid_morphism conjc.
Proof. by split=> [|x y]; apply: complex_eq; rewrite /=; to_R; ring. Qed.

HB.instance Definition _ :=
  GRing.isZmodMorphism.Build complex complex conjc conjc_is_zmod_morphism.
HB.instance Definition _ :=
  GRing.isMonoidMorphism.Build complex complex conjc conjc_is_monoid_morphism.

End Cplx.
HB.export Cplx.
Import Cplx.

(** ** Outcomes of a call *)

(** The exceptions a call can end with.  [ZeroDivisionError], [ValueError]
    and [RuntimeError] are raised by Python, numpy and scipy;
    [InvalidConfiguration] and [DegenerateState] are the two error names of
    the specification: no statement of the source raises them. *)
Inductive exn : Type :=
  | ZeroDivisionError
  | ValueError
  | RuntimeError
  | InvalidConfiguration
  | DegenerateState.

(** [Ok a]: the call returns [a].  [Raise e]: it raises [e].  [NonFinite]:
    it returns, but a numpy division of zero by zero (or numpy's [nan] step
    of a grid of one point) has left [nan] in an array; numpy prints a
    [RuntimeWarning] and goes on, and the values are no real numbers any
    more. *)
Inductive outcome (A : Type) : Type :=
  | Ok (a : A)
  | Raise (e : exn)
  | NonFinite.

Arguments Ok {A} a.
Arguments Raise {A} e.
Arguments NonFinite {A}.

Definition bind {A B : Type} (o : outcome A) (f : A -> outcome B) : outcome B :=
  match o with
  | Ok a => f a
  | Raise e => Raise e
  | NonFinite => NonFinite
  end.

(** ** The numpy, scipy and Python primitives that the class uses *)

Section Primitives.

Local Open Scope R_scope.

(** Comparison of two floats, [x < y]. *)
Definition ltf (x y : R) : bool := if Rlt_dec x y is left _ then true else false.

(** [x ** y] for a positive base [x]. *)
Definition pow_float (x y : R) : R := Rpower x y.

(** [np.exp] on a complex argument. *)
Definition cexp (z : complex) : complex :=
  mulc (RtoC (exp (real z))) (Complex (cos (imag z)) (sin (imag z))).

(** [abs] of a complex number. *)
Definition cabs (z : complex) : R := sqrt (real z ^ 2 + imag z ^ 2).

(** [np.linspace(start, stop, num, retstep=True)]: the samples and the
    step; the last sample is overwritten with [stop].  With [num <= 1]
    numpy returns the step [nan]: [None]. *)
Definition linspace (start stop : R) (num : nat) : seq R * option R :=
  let step := (stop - start) / INR (num - 1) in
  (mkseq (fun i => if (1 < num)%N && (i == num.-1) then stop
                   else start + INR i * step) num,
   if (1 < num)%N then Some step else None).

(** [np.ones(n)]. *)
Definition np_ones (n : nat) : seq R := nseq n 1.

(** Elementwise [a + b] of two arrays of the same length. *)
Definition arr_add (a b : seq R) : seq R := [seq p.1 + p.2 | p <- zip a b].

(** [a / c] and [a * c] of an array and a scalar. *)
Definition arr_div (a : seq R) (c : R) : seq R := [seq x / c | x <- a].
Definition arr_mul (a : seq R) (c : R) : seq R := [seq x * c | x <- a].

(** The builtin [sum] over an array: a left fold from [0]. *)
Definition py_sum (a : seq R) : R := foldl Rplus 0 a.

End Primitives.

(** [scipy.sparse.diags(diagonals, offsets)] as an [n] x [n] matrix, for
    diagonals of the lengths that this size requires: a diagonal with
    offset [k >= 0] puts its entry [t] at [(t, t + k)], one with offset
    [k < 0] at [(t - k, t)]. *)
Definition diags (n : nat) (ds : seq (seq R * int)) : 'M[R]_n :=
  \matrix_(i, j)
    \sum_(d <- ds | (j : nat)%:Z - (i : nat)%:Z == d.2) nth 0 d.1 (minn i j).

(** The entries of a length-[n] array as a list. *)
Definition entries (n : nat) (v : 'cV[R]_n) : seq R :=
  [seq v i ord0 | i <- enum 'I_n].

(** [scipy.sparse.linalg.inv]: the inverse, or [RuntimeError] on a
    singular matrix. *)
Definition la_inv (n : nat) (A : 'M[complex]_n) : outcome 'M[complex]_n :=
  if A \in unitmx then Ok (invmx A) else Raise RuntimeError.

(** ** The class [WavePacket] *)

(** The attributes of an instance; [grid_size] is the index [N]. *)
Record WavePacket (N : nat) : Type := mkWavePacket {
  time_step : R;
  potential_height : R;
  potential_width : R;
  packet_width : R;
  wave_number : R;
  packet_center : R;
  prob_density : 'cV[R]_N;
  x_values : seq R;
  delta_x : R;
  wave_function : 'cV[complex]_N;
  potential_barrier : seq R;
  evolution_operator : 'M[complex]_N
}.

Definition grid_size (N : nat) (w : WavePacket N) : nat := N.

(** Step 2 of [__init__]: the Gaussian, times the plane wave factor, times
    the normalization factor, at the grid point [x]. *)
Definition initial_wave_function
    (wave_number packet_width packet_center x : R) : complex :=
  RtoC (exp ((- (x - packet_center) ^ 2) / (4 * packet_width ^ 2)))%coqR
  * cexp (Ci * RtoC wave_number * RtoC x)
  * RtoC (pow_float (2 * PI * packet_width ^ 2) (- 0.25))%coqR.

(** Step 3: the potential barrier over the grid. *)
Definition barrier (potential_height potential_width : R) (xs : seq R) : seq R :=
  [seq (if ltf 0%coqR x && ltf x potential_width then potential_height
        else 0%coqR) | x <- xs].

(** Step 4: the Hamiltonian matrix. *)
Definition diag_elements (N : nat) (dx : R) (pot : seq R) : seq R :=
  arr_add (arr_div (np_ones N) (dx ^ 2)%coqR) pot.

Definition off_diag_elements (N : nat) (dx : R) : seq R :=
  arr_mul (np_ones (N - 1)) (- 0.5 / dx ^ 2)%coqR.

Definition hamiltonian_matrix (N : nat) (dx : R) (pot : seq R) : 'M[R]_N :=
  diags N [:: (diag_elements N dx pot, 0%Z);
              (off_diag_elements N dx, 1%Z);
              (off_diag_elements N dx, (- 1)%Z)].

(** Step 5: the two factors of the Crank-Nicolson evolution matrix.
    [two_j] is the literal [2.0j]; a real matrix times a complex scalar is
    promoted to a complex matrix. *)
Definition two_j : complex := Complex 0%coqR 2%coqR.

Definition backward_part (N : nat) (dt : R) (H : 'M[R]_N) : 'M[complex]_N :=
  1%:M - (RtoC dt / two_j) *: map_mx RtoC H.

Definition forward_part (N : nat) (dt : R) (H : 'M[R]_N) : 'M[complex]_N :=
  1%:M + (RtoC dt / two_j) *: map_mx RtoC H.

(** [WavePacket.__init__], for a grid size that is not negative (see
    [new_WavePacket] for the others).  The source validates nothing; a call
    ends early only where Python, numpy or scipy do: [0.0 ** (-0.25)] raises
    [ZeroDivisionError], [np.ones(-1)] raises [ValueError], and [la.inv]
    raises [RuntimeError] on a matrix that it cannot factor.  That is the
    case of a singular matrix and of a grid step [0]: then the Hamiltonian
    holds [inf], the matrix to invert holds [nan], and the factorization
    reports it as exactly singular.  With one grid point numpy's grid step
    is [nan]; the [1] x [1] system is then solved as a vector, which only
    warns. *)
Definition __init__ (grid_size : nat)
    (time_step potential_height potential_width : R)
    (wave_number packet_width packet_center x_min x_max : R)
    : outcome (WavePacket grid_size) :=
  let prob_density := (0 : 'cV[R]_grid_size) in
  let: (x_values, step) := linspace x_min x_max grid_size in
  let wave_function : 'cV[complex]_grid_size :=
    \col_i initial_wave_function wave_number packet_width packet_center
             (nth 0 x_values i) in
  if packet_width == 0 then Raise ZeroDivisionError else
  let potential_barrier := barrier potential_height potential_width x_values in
  if grid_size == 0%N then Raise ValueError else
  if step is Some delta_x then
    if delta_x == 0 then Raise RuntimeError else
    let H := hamiltonian_matrix grid_size delta_x potential_barrier in
    bind (la_inv (backward_part time_step H)) (fun inv_backward =>
    Ok {| time_step := time_step;
          potential_height := potential_height;
          potential_width := potential_width;
          packet_width := packet_width;
          wave_number := wave_number;
          packet_center := packet_center;
          prob_density := prob_density;
          x_values := x_values;
          delta_x := delta_x;
          wave_function := wave_function;
          potential_barrier := potential_barrier;
          evolution_operator := inv_backward *m forward_part time_step H |})
  else NonFinite.

(** The instance that [__init__] returns when it returns one. *)
Definition constructed (grid_size : nat)
    (time_step potential_height potential_width : R)
    (wave_number packet_width packet_center x_min x_max : R)
    : WavePacket grid_size :=
  let x_values := (linspace x_min x_max grid_size).1 in
  let delta_x := ((x_max - x_min) / INR (grid_size - 1))%coqR in
  let potential_barrier := barrier potential_height potential_width x_values in
  let H := hamiltonian_matrix grid_size delta_x potential_barrier in
  {| time_step := time_step;
     potential_height := potential_height;
     potential_width := potential_width;
     packet_width := packet_width;
     wave_number := wave_number;
     packet_center := packet_center;
     prob_density := 0;
     x_values := x_values;
     delta_x := delta_x;
     wave_function :=
       \col_i initial_wave_function wave_number packet_width packet_center
                (nth 0 x_values i);
     potential_barrier := potential_barrier;
     evolution_operator :=
       invmx (backward_part time_step H) *m forward_part time_step H |}.

(** The call [WavePacket(grid_size, ...)] for any Python integer as grid
    size: a negative one ends the constructor at its first array,
    [np.zeros(grid_size)], with [ValueError]. *)
Definition new_WavePacket (grid_size : int)
    (time_step potential_height potential_width : R)
    (wave_number packet_width packet_center x_min x_max : R)
    : outcome {N : nat & WavePacket N} :=
  match grid_size with
  | Negz _ => Raise ValueError
  | Posz N =>
    bind (__init__ N time_step potential_height potential_width
            wave_number packet_width packet_center x_min x_max)
         (fun e => Ok (existT (fun N => WavePacket N) N e))
  end.

(** [WavePacket.evolve_wave_function]: the instance after the call and the
    returned array, which is the new [prob_density] itself.  A total
    probability [0] makes numpy divide [0] by [0]: no exception, [nan]
    everywhere. *)
Definition evolved (N : nat) (w : WavePacket N) : 'cV[complex]_N :=
  evolution_operator w *m wave_function w.

Definition abs_squared (N : nat) (psi : 'cV[complex]_N) : 'cV[R]_N :=
  \col_i (cabs (psi i ord0) ^ 2)%coqR.

Definition total_probability (N : nat) (w : WavePacket N) : R :=
  py_sum (entries (abs_squared (evolved w))).

Definition evolve_wave_function (N : nat) (w : WavePacket N)
    : outcome (WavePacket N * 'cV[R]_N) :=
  let psi := evolved w in
  let density := abs_squared psi in
  let total := py_sum (entries density) in
  if total == 0 then NonFinite else
  let density' : 'cV[R]_N := \col_i (density i ord0 / total)%coqR in
  let psi' : 'cV[complex]_N :=
    \col_i (psi i ord0 / RtoC (pow_float total 0.5%coqR)) in
  Ok ({| time_step := time_step w;
         potential_height := potential_height w;
         potential_width := potential_width w;
         packet_width := packet_width w;
         wave_number := wave_number w;
         packet_center := packet_center w;
         prob_density := density';
         x_values := x_values w;
         delta_x := delta_x w;
         wave_function := psi';
         potential_barrier := potential_barrier w;
         evolution_operator := evolution_operator w |}, density').

(** The instance and the array that a call leaves when the total
    probability is not zero. *)
Definition renormalized (N : nat) (w : WavePacket N) : WavePacket N :=
  let total := total_probability w in
  {| time_step := time_step w;
     potential_height := potential_height w;
     potential_width := potential_width w;
     packet_width := packet_width w;
     wave_number := wave_number w;
     packet_center := packet_center w;
     prob_density := \col_i (abs_squared (evolved w) i ord0 / total)%coqR;
     x_values := x_values w;
     delta_x := delta_x w;
     wave_function :=
       \col_i (evolved w i ord0 / RtoC (pow_float total 0.5%coqR));
     potential_barrier := potential_barrier w;
     evolution_operator := evolution_operator w |}.

(** The engines whose state cannot collapse: an invertible evolution
    operator and a wave function that is not zero. *)
Definition live (N : nat) (w : WavePacket N) : Prop :=
  evolution_operator w \in unitmx /\ wave_function w <> 0.

(** [k] successive calls of [evolve_wave_function], as the animation's
    generator issues them; the array returned by the last one. *)
Fixpoint advance (N : nat) (k : nat) (w : WavePacket N)
    : outcome (WavePacket N * 'cV[R]_N) :=
  match k with
  | 0%N => Ok (w, prob_density w)
  | k'.+1 => bind (advance k' w) (fun r => evolve_wave_function r.1)
  end.

(** The configurations that the specification calls valid: at least three
    grid points, increasing bounds, a barrier width that is not negative, a
    time step that is not zero and a positive packet width. *)
Definition valid_configuration (grid_size : nat)
    (time_step potential_width packet_width x_min x_max : R) : Prop :=
  [/\ (3 <= grid_size)%N, (x_min < x_max)%coqR, (0 <= potential_width)%coqR,
      (time_step <> 0)%coqR & (0 < packet_width)%coqR].

(** The engine of the notebook's first run. *)
Definition notebook_engine : WavePacket 500 :=
  constructed 500 5%coqR 1%coqR 10%coqR 1%coqR 5%coqR (-50)%coqR
    (-200)%coqR 200%coqR.

(** An engine whose wave function has become zero at every grid point.
    [collapsed] is what the constructor leaves in floating point for three
    grid points and a packet width of [0.5]: the Gaussian, [exp] of
    [-22500], [-2500] and [-62500], underflows to [0.0] at each of them. *)
Definition underflowed (N : nat) (w : WavePacket N) : WavePacket N :=
  {| time_step := time_step w;
     potential_height := potential_height w;
     potential_width := potential_width w;
     packet_width := packet_width w;
     wave_number := wave_number w;
     packet_center := packet_center w;
     prob_density := prob_density w;
     x_values := x_values w;
     delta_x := delta_x w;
     wave_function := 0;
     potential_barrier := potential_barrier w;
     evolution_operator := evolution_operator w |}.

Definition collapsed : WavePacket 3 :=
  underflowed (constructed 3 5%coqR 1%coqR 10%coqR 1%coqR 0.5%coqR (-50)%coqR
                 (-200)%coqR 200%coqR).

(** Reflection of the grid: index [i] goes to [N - 1 - i]. *)
Definition reflect_vec (T : Type) (N : nat) (v : 'cV[T]_N) : 'cV[T]_N :=
  \col_i v (rev_ord i) ord0.

Definition reflect_mx (T : Type) (N : nat) (A : 'M[T]_N) : 'M[T]_N :=
  \matrix_(i, j) A (rev_ord i) (rev_ord j).

(** The states that the reflection of the grid leaves unchanged. *)
Definition mirror_symmetric (N : nat) (w : WavePacket N) : Prop :=
  reflect_mx (evolution_operator w) = evolution_operator w /\
  reflect_vec (wave_function w) = wave_function w.

(** The conjugate transpose of a complex matrix. *)
Definition adjoint (m n : nat) (A : 'M[complex]_(m, n)) : 'M[complex]_(n, m) :=
  (map_mx conjc A)^T.

(** The evolution matrix of step 5, for a time step and a Hamiltonian. *)
Definition crank_nicolson (N : nat) (dt : R) (H : 'M[R]_N) : 'M[complex]_N :=
  invmx (backward_part dt H) *m forward_part dt H.

(** The engine [w] with its wave function multiplied by [c]. *)
Definition rescaled (N : nat) (c : complex) (w : WavePacket N) : WavePacket N :=
  {| time_step := time_step w;
     potential_height := potential_height w;
     potential_width := potential_width w;
     packet_width := packet_width w;
     wave_number := wave_number w;
     packet_center := packet_center w;
     prob_density := prob_density w;
     x_values := x_values w;
     delta_x := delta_x w;
     wave_function := c *: wave_function w;
     potential_barrier := potential_barrier w;
     evolution_operator := evolution_operator w |}.

(** The phase of a complex number that is not zero. *)
Definition phase (c : complex) : complex := c / RtoC (cabs c).

(** ** The class [WaveAnimation] *)

Module Animation.

(** The attributes of a [WaveAnimation] that the class computes with; the
    figure, the axes and the plotted line are matplotlib objects, of which
    only what the class writes is kept: the number shown as elapsed time
    (before it is formatted, [None] for the empty text), the data of the
    plotted line, and whether the figure is open. *)
Record WaveAnimation (N : nat) : Type := mkWaveAnimation {
  current_time : R;
  wave_sim : WavePacket N;
  time_display : option R;
  prob_line : 'cV[R]_N;
  max_steps : nat;
  current_step : nat;
  fig_open : bool
}.

(** [WaveAnimation.__init__]: the first line is plotted from a call of
    [evolve_wave_function], which advances the wave packet once. *)
Definition __init__ (N : nat) (wave_packet : WavePacket N) (max_steps : nat)
    : outcome (WaveAnimation N) :=
  bind (evolve_wave_function wave_packet) (fun r =>
  Ok {| current_time := 0%coqR;
        wave_sim := r.1;
        time_display := None;
        prob_line := r.2;
        max_steps := max_steps;
        current_step := 0;
        fig_open := true |}).

(** [WaveAnimation.update_plot]. *)
Definition update_plot (N : nat) (a : WaveAnimation N) (new_data : 'cV[R]_N)
    : WaveAnimation N :=
  {| current_time := current_time a;
     wave_sim := wave_sim a;
     time_display := time_display a;
     prob_line := new_data;
     max_steps := max_steps a;
     current_step := current_step a;
     fig_open := fig_open a |}.

(** A generator object of [time_generator]: not started, suspended at its
    [yield], or finished. *)
Inductive generator : Type := Created | Suspended | Finished.

(** The body of [time_generator] from the test of the [while] loop to the
    next [yield] or to the end. *)
Definition loop (N : nat) (a : WaveAnimation N)
    : outcome (option 'cV[R]_N * generator * WaveAnimation N) :=
  if (current_step a < max_steps a)%N then
    let t := (current_time a + time_step (wave_sim a))%coqR in
    bind (evolve_wave_function (wave_sim a)) (fun r =>
    Ok (Some r.2, Suspended,
        {| current_time := t;
           wave_sim := r.1;
           time_display := Some (t * 2.419e-2)%coqR;
           prob_line := prob_line a;
           max_steps := max_steps a;
           current_step := current_step a;
           fig_open := fig_open a |}))
  else
    Ok (None, Finished,
        {| current_time := current_time a;
           wave_sim := wave_sim a;
           time_display := time_display a;
           prob_line := prob_line a;
           max_steps := max_steps a;
           current_step := current_step a;
           fig_open := false |}).

Definition count_step (N : nat) (a : WaveAnimation N) : WaveAnimation N :=
  {| current_time := current_time a;
     wave_sim := wave_sim a;
     time_display := time_display a;
     prob_line := prob_line a;
     max_steps := max_steps a;
     current_step := (current_step a).+1;
     fig_open := fig_open a |}.

(** One [next()] on a generator of [time_generator]: the yielded array, or
    [None] when the generator stops.  A suspended generator resumes after
    its [yield], at [self.current_step += 1]. *)
Definition next (N : nat) (g : generator) (a : WaveAnimation N)
    : outcome (option 'cV[R]_N * generator * WaveAnimation N) :=
  match g with
  | Created => loop a
  | Suspended => loop (count_step a)
  | Finished => Ok (None, Finished, a)
  end.

(** A consumer that draws the generator to its end, as [FuncAnimation]
    does frame by frame: each yielded array goes to [update_plot]; the
    frames are kept with the elapsed time shown when they were drawn.
    [fuel] bounds the number of [next()] calls. *)
Fixpoint play (N : nat) (fuel : nat) (g : generator) (a : WaveAnimation N)
    : outcome (seq (option R * 'cV[R]_N) * generator * WaveAnimation N) :=
  match fuel with
  | 0%N => Ok ([::], g, a)
  | fuel'.+1 =>
    bind (next g a) (fun r =>
    match r with
    | (Some data, g', a') =>
      bind (play fuel' g' (update_plot a' data)) (fun rest =>
      Ok ((time_display a', data) :: rest.1.1, rest.1.2, rest.2))
    | (None, g', a') => Ok ([::], g', a')
    end)
  end.

End Animation.

(** The steps that a generator has counted or is about to count. *)
Definition counted (N : nat) (g : Animation.generator)
    (a : Animation.WaveAnimation N) : nat :=
  if g is Animation.Suspended then (Animation.current_step a).+1
  else Animation.current_step a.

(** What a run of [n] frames from the animation [a] leaves: the frames
    [fs], each with the elapsed time shown with it, and the animation
    [a']. *)
Definition played (N : nat) (n : nat) (a : Animation.WaveAnimation N)
    (fs : seq (option R * 'cV[R]_N)) (a' : Animation.WaveAnimation N) : Prop :=
  let dt := time_step (Animation.wave_sim a) in
  [/\ size fs = n,
      Animation.current_step a' = Animation.max_steps a /\
      Animation.max_steps a' = Animation.max_steps a,
      Animation.current_time a' = (Animation.current_time a + INR n * dt)%coqR,
      Animation.fig_open a' = false
    & (exists d, advance n (Animation.wave_sim a)
                 = Ok (Animation.wave_sim a', d)) /\
      forall j, (j < n)%N ->
        (nth (None, 0) fs j).1
        = Some ((Animation.current_time a + INR j.+1 * dt) * 2.419e-2)%coqR /\
        exists wj, advance j.+1 (Animation.wave_sim a)
                   = Ok (wj, (nth (None, 0) fs j).2)].

(** The animation after a [yield] of [time_generator]. *)
Definition after_yield (N : nat) (a : Animation.WaveAnimation N)
    : Animation.WaveAnimation N :=
  let t :=
    (Animation.current_time a + time_step (Animation.wave_sim a))%coqR in
  {| Animation.current_time := t;
     Animation.wave_sim := renormalized (Animation.wave_sim a);
     Animation.time_display := Some (t * 2.419e-2)%coqR;
     Animation.prob_line := Animation.prob_line a;
     Animation.max_steps := Animation.max_steps a;
     Animation.current_step := Animation.current_step a;
     Animation.fig_open := Animation.fig_open a |}.

(** The animation of the notebook's first run, as [WaveAnimation.__init__]
    leaves it. *)
Definition notebook_animation : Animation.WaveAnimation 500 :=
  {| Animation.current_time := 0%coqR;
     Animation.wave_sim := renormalized notebook_engine;
     Animation.time_display := None;
     Animation.prob_line := prob_density (renormalized notebook_engine);
     Animation.max_steps := 100;
     Animation.current_step := 0;
     Animation.fig_open := true |}.

(** * Properties *)

Local Arguments pow : simpl never.

(** ** The grid, the barrier and the Hamiltonian *)

Lemma offset_diag (i j : nat) : (j%:Z - i%:Z == 0 :> int) = (i == j).
Proof. by rewrite subr_eq0 eq_sym. Qed.

Lemma offset_super (i j : nat) : (j%:Z - i%:Z == 1 :> int) = (i.+1 == j).
Proof. by rewrite subr_eq -intS eq_sym. Qed.

Lemma offset_sub (i j : nat) : (j%:Z - i%:Z == -1 :> int) = (j.+1 == i).
Proof. by rewrite NegzE -opprB eqr_opp offset_super. Qed.

Lemma size_linspace a b n : size (linspace a b n).1 = n.
Proof. by rewrite /linspace /= size_mkseq. Qed.

Lemma size_barrier V0 a xs : size (barrier V0 a xs) = size xs.
Proof. by rewrite /barrier size_map. Qed.

Lemma nth_diag_elements N dx pot i :
  size pot = N -> (i < N)%N ->
  nth 0 (diag_elements N dx pot) i = (1 / dx ^ 2 + nth 0 pot i)%coqR.
Proof.
move=> sz iN; rewrite /diag_elements /arr_add /arr_div /np_ones.
rewrite (nth_map (0, 0)) ?size_zip ?size_map ?size_nseq ?sz ?minnn //.
rewrite nth_zip ?size_map ?size_nseq //=.
by rewrite (nth_map 0) ?size_nseq // nth_nseq iN.
Qed.

Lemma nth_off_diag_elements N dx i :
  (i < N - 1)%N -> nth 0 (off_diag_elements N dx) i = (- 0.5 / dx ^ 2)%coqR.
Proof.
move=> iN; rewrite /off_diag_elements /arr_mul /np_ones.
by rewrite (nth_map 0) ?size_nseq // nth_nseq iN Rmult_1_l.
Qed.

Lemma hamiltonian_entry N dx pot (i j : 'I_N) :
  size pot = N ->
  hamiltonian_matrix N dx pot i j =
    if i == j then (1 / dx ^ 2 + nth 0 pot i)%coqR
    else if (i.+1 == j :> nat) || (j.+1 == i :> nat) then (- 0.5 / dx ^ 2)%coqR
    else 0.
Proof.
move=> sz; rewrite /hamiltonian_matrix /diags mxE !big_cons big_nil /=.
rewrite offset_diag offset_super offset_sub -(val_eqE i j) /=.
have [ij|ij|ij] := ltngtP (i : nat) (j : nat).
- rewrite (gtn_eqF (ltnW ij : i < j.+1)%N) orbF.
  case: eqP => [ij1|//]; rewrite addr0.
  rewrite nth_off_diag_elements // subn1 -ltnS prednK ?ij1 ?ltn_ord //.
  exact: leq_trans (ltn_ord j).
- rewrite (gtn_eqF (ltnW ij : j < i.+1)%N) /=.
  case: eqP => [ji1|//]; rewrite addr0.
  rewrite nth_off_diag_elements // subn1 -ltnS prednK ?ji1 ?ltn_ord //.
  exact: leq_trans (ltn_ord i).
- rewrite -ij !(gtn_eqF (ltnSn i)) addr0.
  by rewrite nth_diag_elements.
Qed.

Lemma hamiltonian_sym N dx pot :
  (hamiltonian_matrix N dx pot)^T = hamiltonian_matrix N dx pot.
Proof.
apply/matrixP => i j.
rewrite mxE /hamiltonian_matrix /diags !mxE !big_cons !big_nil /=.
rewrite !offset_diag !offset_super !offset_sub minnC [j == i :> nat]eq_sym.
by case: (i == j :> nat); case: (_.+1 == _); case: (_.+1 == _).
Qed.

(** ** Real and complex matrices *)

Lemma CiCi : Ci * Ci = -1.
Proof. by apply: complex_eq; rewrite /=; to_R; ring. Qed.

Lemma sum_ge0 (I : Type) (r : seq I) (P : pred I) (f : I -> R) :
  (forall i, 0 <= f i)%coqR -> (0 <= \sum_(i <- r | P i) f i)%coqR.
Proof.
move=> f0; elim/big_rec: _ => [|i x _ x0]; first exact: Rle_refl.
by to_R; have := f0 i; lra.
Qed.

Lemma sum_eq0 (n : nat) (f : 'I_n -> R) :
  (forall i, 0 <= f i)%coqR -> \sum_i f i = 0 -> forall i, f i = 0.
Proof.
move=> f0 s0 i; move: s0; rewrite (bigD1 i) //=.
have := sum_ge0 (index_enum _) (fun j => j != i) f0.
by have := f0 i; to_R => fi rest total; lra.
Qed.

Section CrankNicolsonUnit.

Variable N : nat.

Local Notation cmx := (map_mx RtoC).

Lemma cplx_decomp m n (v : 'M[complex]_(m, n)) :
  v = cmx (map_mx real v) + Ci *: cmx (map_mx imag v).
Proof.
apply/matrixP => i j; rewrite !mxE; case: (v i j) => a b.
by apply: complex_eq; rewrite /=; to_R; ring.
Qed.

Lemma cplx_eq0 m n (x y : 'M[R]_(m, n)) :
  cmx x + Ci *: cmx y = 0 -> x = 0 /\ y = 0.
Proof.
move=> /matrixP h; split; apply/matrixP => i j; have := h i j; rewrite !mxE.
- by move=> /(congr1 real) /=; to_R => ?; lra.
- by move=> /(congr1 imag) /=; to_R => ?; lra.
Qed.

Lemma trmx11 (M : 'M[R]_1) : M^T = M.
Proof. by apply/matrixP => i j; rewrite mxE !ord1. Qed.

Lemma row_sq_eq0 (a b : 'rV[R]_N) : a *m a^T + b *m b^T = 0 -> a = 0 /\ b = 0.
Proof.
move=> /matrixP /(_ ord0 ord0); rewrite !mxE -big_split /= => s0.
have sq i : (0 <= a ord0 i * a^T i ord0 + b ord0 i * b^T i ord0)%coqR.
  by rewrite !mxE; to_R; nra.
have h i := sum_eq0 sq s0 i.
by split; apply/matrixP => i j; rewrite !ord1 !mxE; have := h j; rewrite !mxE;
  to_R => /Rplus_sqr_eq_0 [].
Qed.

Lemma cn_inj (s : R) (H : 'M[R]_N) (v : 'rV[complex]_N) :
  H^T = H -> v *m (1%:M + (Ci * RtoC s) *: cmx H) = 0 -> v = 0.
Proof.
move=> symH; rewrite mulmxDr mulmx1 -scalemxAr.
rewrite [v]cplx_decomp; set a := map_mx real v; set b := map_mx imag v.
rewrite mulmxDl -scalemxAl -!map_mxM scalerDr !scalerA.
rewrite -mulrA [RtoC s * Ci]mulrC mulrA CiCi.
rewrite mulN1r scaleNr [X in _ + X]addrC addrACA.
rewrite -[_ *: cmx (a *m H)]scalerA -scalerDr -!map_mxZ -map_mxB -map_mxD.
move=> /cplx_eq0 [/eqP]; rewrite subr_eq0 => /eqP ea /eqP; rewrite addr_eq0 => /eqP eb.
have [-> ->] : a = 0 /\ b = 0; last by rewrite !map_mx0 scaler0 addr0.
have ea' : a *m a^T = s *: (b *m H *m a^T) by rewrite {1}ea -scalemxAl.
have eb' : b *m b^T = - (s *: (a *m H *m b^T)) by rewrite {1}eb mulNmx -scalemxAl.
apply: row_sq_eq0; rewrite ea' eb' -[a *m H *m b^T]trmx11.
by rewrite !trmx_mul trmxK symH mulmxA subrr.
Qed.

Lemma cn_unit (s : R) (H : 'M[R]_N) :
  H^T = H -> 1%:M + (Ci * RtoC s) *: cmx H \in unitmx.
Proof.
move=> symH; rewrite -row_free_unit -kermx_eq0; apply/eqP/row_matrixP => i.
by rewrite row0; apply: (cn_inj (s:=s) symH); rewrite -row_mul mulmx_ker row0.
Qed.

End CrankNicolsonUnit.

Local Notation cmx := (map_mx RtoC).

(** ** The two factors of the evolution matrix are invertible *)


Lemma div_two_j (dt : R) : RtoC dt / two_j = - (Ci * RtoC dt / 2%:R).
Proof. by apply: complex_eq; rewrite /=; to_R; field. Qed.

Lemma half_RtoC (dt : R) : Ci * RtoC dt / 2%:R = Ci * RtoC (dt / 2)%coqR.
Proof. by apply: complex_eq; rewrite /=; to_R; field. Qed.

Lemma backward_partE N dt (H : 'M[R]_N) :
  backward_part dt H = 1%:M + (Ci * RtoC dt / 2%:R) *: cmx H.
Proof. by rewrite /backward_part div_two_j scaleNr opprK. Qed.

Lemma forward_partE N dt (H : 'M[R]_N) :
  forward_part dt H = 1%:M - (Ci * RtoC dt / 2%:R) *: cmx H.
Proof. by rewrite /forward_part div_two_j scaleNr. Qed.

Lemma backward_unit N dt (H : 'M[R]_N) :
  H^T = H -> backward_part dt H \in unitmx.
Proof. by move=> symH; rewrite backward_partE half_RtoC; apply: cn_unit. Qed.

Lemma forward_unit N dt (H : 'M[R]_N) :
  H^T = H -> forward_part dt H \in unitmx.
Proof.
move=> symH; rewrite forward_partE half_RtoC -scaleNr -mulrN -rmorphN /=.
exact: cn_unit.
Qed.

Lemma grid_step_neq0 (N : nat) (x_min x_max : R) :
  (1 < N)%N -> x_min <> x_max -> ((x_max - x_min) / INR (N - 1))%coqR != 0.
Proof.
move=> N1 xm; apply/eqP; to_R => /Rmult_integral [|]; first by lra.
apply: Rinv_neq_0_compat; apply: not_0_INR => /eqP.
by rewrite subn_eq0 leqNgt N1.
Qed.

Lemma linspaceE (x_min x_max : R) (N : nat) :
  (1 < N)%N ->
  linspace x_min x_max N =
  ((linspace x_min x_max N).1, Some ((x_max - x_min) / INR (N - 1))%coqR).
Proof. by move=> N1; rewrite /linspace N1. Qed.

Lemma init_ok N dt V0 a k w c x_min x_max :
  (1 < N)%N -> x_min <> x_max -> (w <> 0)%coqR ->
  __init__ N dt V0 a k w c x_min x_max
  = Ok (constructed N dt V0 a k w c x_min x_max).
Proof.
move=> N1 xm /eqP /negbTE w0; rewrite /__init__ (linspaceE _ _ N1) w0.
rewrite (gtn_eqF (ltnW N1)) (negbTE (grid_step_neq0 N1 xm)).
by rewrite /la_inv backward_unit //; apply: hamiltonian_sym.
Qed.

(** ** One call of [evolve_wave_function] *)


Lemma foldl_Rplus (s : seq R) (z : R) : foldl Rplus z s = z + \sum_(x <- s) x.
Proof.
elim: s z => [|x s IH] z /=; first by rewrite big_nil addr0.
by rewrite IH big_cons addrA.
Qed.

Lemma py_sumE (s : seq R) : py_sum s = \sum_(x <- s) x.
Proof. by rewrite /py_sum foldl_Rplus add0r. Qed.

Lemma py_sum_entries (n : nat) (v : 'cV[R]_n) :
  py_sum (entries v) = \sum_i v i ord0.
Proof. by rewrite py_sumE /entries big_map big_enum. Qed.

Lemma cabs_sq (z : complex) : (cabs z ^ 2 = real z ^ 2 + imag z ^ 2)%coqR.
Proof. by rewrite /cabs pow2_sqrt //; nra. Qed.

Lemma cabs_sq_ge0 (z : complex) : (0 <= cabs z ^ 2)%coqR.
Proof. exact: pow2_ge_0. Qed.

Lemma cabs_sq_eq0 (z : complex) : (cabs z ^ 2)%coqR = 0 -> z = 0.
Proof.
rewrite cabs_sq -!Rsqr_pow2 => /Rplus_sqr_eq_0 [re0 im0].
exact: complex_eq.
Qed.

Lemma total_probabilityE (N : nat) (w : WavePacket N) :
  total_probability w = \sum_i (cabs (evolved w i ord0) ^ 2)%coqR.
Proof.
rewrite /total_probability py_sum_entries.
by apply: eq_bigr => i _; rewrite mxE.
Qed.

Lemma total_probability_ge0 (N : nat) (w : WavePacket N) :
  (0 <= total_probability w)%coqR.
Proof. by rewrite total_probabilityE; apply: sum_ge0 => i; exact: cabs_sq_ge0. Qed.

Lemma total_probability_eq0 (N : nat) (w : WavePacket N) :
  total_probability w = 0 -> evolved w = 0.
Proof.
rewrite total_probabilityE => s0; apply/matrixP => i j; rewrite ord1 [RHS]mxE.
apply: cabs_sq_eq0.
exact: (sum_eq0 (fun i => cabs_sq_ge0 (evolved w i ord0)) s0).
Qed.


Lemma live_total_probability (N : nat) (w : WavePacket N) :
  live w -> total_probability w <> 0.
Proof.
move=> [un psi0] /total_probability_eq0; rewrite /evolved => Upsi.
by apply: psi0; rewrite -[LHS]mul1mx -(mulVmx un) -mulmxA Upsi mulmx0.
Qed.


Lemma evolve_ok (N : nat) (w : WavePacket N) :
  total_probability w <> 0 ->
  evolve_wave_function w = Ok (renormalized w, prob_density (renormalized w)).
Proof.
rewrite /evolve_wave_function -/(total_probability w) => /eqP /negbTE ->.
by [].
Qed.

Lemma evolve_nan (N : nat) (w : WavePacket N) :
  total_probability w = 0 -> evolve_wave_function w = NonFinite.
Proof.
by rewrite /evolve_wave_function -/(total_probability w) => ->; rewrite eqxx.
Qed.

(** ** Construction *)


Lemma nth_linspace (x_min x_max : R) (N i : nat) :
  (1 < N)%N -> (i < N)%N ->
  nth 0 (linspace x_min x_max N).1 i
  = (x_min + INR i * ((x_max - x_min) / INR (N - 1)))%coqR.
Proof.
move=> N1 iN; rewrite /linspace /= nth_mkseq // N1 /=.
case: eqP => // ->; rewrite -subn1; field.
by apply: not_0_INR => /eqP; rewrite subn_eq0 leqNgt N1.
Qed.

Lemma valid_init N dt a w x_min x_max :
  valid_configuration N dt a w x_min x_max ->
  [/\ (1 < N)%N, x_min <> x_max & (w <> 0)%coqR].
Proof. by case=> N3 xm _ _ w0; split; [exact: ltnW | lra | lra]. Qed.

(** C1.  For every valid configuration [__init__] returns an engine, and
    its propagation operator is (I + i dt/2 H)^-1 (I - i dt/2 H), where H is
    the Hamiltonian assembled from the engine's grid step and potential:
    dividing by [2.0j] negates the imaginary factor, so [backward_part] is
    I + i dt/2 H and [forward_part] is I - i dt/2 H.  The first factor is
    invertible, so [invmx] is its inverse. *)
Theorem propagation_operator_crank_nicolson
    (N : nat) (dt V0 a k w c x_min x_max : R) :
  valid_configuration N dt a w x_min x_max ->
  exists e : WavePacket N,
    __init__ N dt V0 a k w c x_min x_max = Ok e /\
    let H := cmx (hamiltonian_matrix N (delta_x e) (potential_barrier e)) in
    let A := 1%:M + (Ci * RtoC dt / 2%:R) *: H in
    let B := 1%:M - (Ci * RtoC dt / 2%:R) *: H in
    [/\ A \in unitmx, invmx A *m A = 1%:M & evolution_operator e = invmx A *m B].
Proof.
move=> /valid_init [N1 xm w0]; eexists; split; first exact: init_ok.
rewrite /= -backward_partE -forward_partE.
set H := hamiltonian_matrix _ _ _.
have un : backward_part dt H \in unitmx.
  by apply: backward_unit; exact: hamiltonian_sym.
by split=> //; rewrite mulVmx.
Qed.

Lemma propagation_operator_witness :
  valid_configuration 500 5 10 5 (-200) 200 /\
  exists e : WavePacket 500,
    __init__ 500 5 1 10 1 5 (-50) (-200) 200 = Ok e /\
    let H := cmx (hamiltonian_matrix 500 (delta_x e) (potential_barrier e)) in
    let A := 1%:M + (Ci * RtoC 5 / 2%:R) *: H in
    let B := 1%:M - (Ci * RtoC 5 / 2%:R) *: H in
    [/\ A \in unitmx, invmx A *m A = 1%:M & evolution_operator e = invmx A *m B].
Proof.
have v : valid_configuration 500 5 10 5 (-200) 200 by split=> //; lra.
split; [exact: v | exact: (propagation_operator_crank_nicolson 1 1 (-50) v)].
Defined.

(** C5.  For every valid configuration the assembled Hamiltonian, an
    [N] x [N] matrix, has [1 / dx^2 + potential[i]] at the diagonal entry
    [i], [-0.5 / dx^2] on the super- and the sub-diagonal and [0] elsewhere,
    and it is symmetric; the engine's operator is built from this matrix. *)
Theorem hamiltonian_tridiagonal (N : nat) (dt V0 a k w c x_min x_max : R) :
  valid_configuration N dt a w x_min x_max ->
  exists e : WavePacket N,
    __init__ N dt V0 a k w c x_min x_max = Ok e /\
    let H := hamiltonian_matrix N (delta_x e) (potential_barrier e) in
    [/\ delta_x e = ((x_max - x_min) / INR (N - 1))%coqR,
        forall i j : 'I_N,
          H i j = if i == j
                  then (1 / delta_x e ^ 2 + nth 0 (potential_barrier e) i)%coqR
                  else if (i.+1 == j :> nat) || (j.+1 == i :> nat)
                       then (- 0.5 / delta_x e ^ 2)%coqR
                       else 0%coqR,
        H^T = H
      & evolution_operator e = invmx (backward_part dt H) *m forward_part dt H].
Proof.
move=> /valid_init [N1 xm w0]; eexists; split; first exact: init_ok.
split=> //=; last exact: hamiltonian_sym.
by move=> i j; rewrite hamiltonian_entry // size_barrier size_linspace.
Qed.

Lemma hamiltonian_tridiagonal_witness :
  valid_configuration 500 5 10 5 (-200) 200 /\
  exists e : WavePacket 500,
    __init__ 500 5 1 10 1 5 (-50) (-200) 200 = Ok e /\
    let H := hamiltonian_matrix 500 (delta_x e) (potential_barrier e) in
    [/\ delta_x e = ((200 - (-200)) / INR (500 - 1))%coqR,
        forall i j : 'I_500,
          H i j = if i == j
                  then (1 / delta_x e ^ 2 + nth 0 (potential_barrier e) i)%coqR
                  else if (i.+1 == j :> nat) || (j.+1 == i :> nat)
                       then (- 0.5 / delta_x e ^ 2)%coqR
                       else 0%coqR,
        H^T = H
      & evolution_operator e = invmx (backward_part 5 H) *m forward_part 5 H].
Proof.
have v : valid_configuration 500 5 10 5 (-200) 200 by split=> //; lra.
split; [exact: v | exact: (hamiltonian_tridiagonal 1 1 (-50) v)].
Defined.

Lemma ltfP (x y : R) : reflect (x < y)%coqR (ltf x y).
Proof. by rewrite /ltf; case: Rlt_dec => h; constructor. Qed.

Lemma nth_barrier (V0 a : R) (xs : seq R) (i : nat) :
  (i < size xs)%N ->
  nth 0 (barrier V0 a xs) i
  = if ltf 0%coqR (nth 0 xs i) && ltf (nth 0 xs i) a then V0 else 0%coqR.
Proof. by move=> ixs; rewrite /barrier (nth_map 0). Qed.

(** C7.  For every valid configuration the potential profile has length
    [N]; at the grid point [i], of coordinate [x_min + i * dx], it is
    [potential_height] when the coordinate lies strictly between [0] and
    [potential_width], and [0] otherwise.  A [potential_width] of [0] gives
    the all-zero potential. *)
Theorem potential_profile (N : nat) (dt V0 a k w c x_min x_max : R) :
  valid_configuration N dt a w x_min x_max ->
  exists e : WavePacket N,
    __init__ N dt V0 a k w c x_min x_max = Ok e /\
    [/\ size (potential_barrier e) = N,
        forall i, (i < N)%N ->
          let x := nth 0 (x_values e) i in
          [/\ x = (x_min + INR i * delta_x e)%coqR,
              (0 < x < a)%coqR -> nth 0 (potential_barrier e) i = V0
            & ~ (0 < x < a)%coqR -> nth 0 (potential_barrier e) i = 0%coqR]
      & a = 0%coqR -> forall i, nth 0 (potential_barrier e) i = 0%coqR].
Proof.
move=> /valid_init [N1 xm w0]; eexists; split; first exact: init_ok.
have sz := size_linspace x_min x_max N.
split=> /= [|i iN|a0 i]; first by rewrite size_barrier.
- rewrite nth_barrier ?sz // nth_linspace //; split=> // [[x0 xa]|nx].
  + by rewrite (introT (ltfP _ _) x0) (introT (ltfP _ _) xa).
  + by case: ltfP => //= x0; case: ltfP => // xa; case: nx.
- have [iN|iN] := ltnP i N; last by rewrite nth_default // size_barrier sz.
  rewrite nth_barrier ?sz //; case: ltfP => //= x0; case: ltfP => // xa.
  by move: x0 xa; rewrite a0; lra.
Qed.

Lemma potential_profile_witness :
  valid_configuration 500 5 10 5 (-200) 200 /\
  exists e : WavePacket 500,
    __init__ 500 5 1 10 1 5 (-50) (-200) 200 = Ok e /\
    [/\ size (potential_barrier e) = 500%N,
        forall i, (i < 500)%N ->
          let x := nth 0 (x_values e) i in
          [/\ x = (-200 + INR i * delta_x e)%coqR,
              (0 < x < 10)%coqR -> nth 0 (potential_barrier e) i = 1%coqR
            & ~ (0 < x < 10)%coqR -> nth 0 (potential_barrier e) i = 0%coqR]
      & 10%coqR = 0%coqR -> forall i, nth 0 (potential_barrier e) i = 0%coqR].
Proof.
have v : valid_configuration 500 5 10 5 (-200) 200 by split=> //; lra.
split; [exact: v | exact: (potential_profile 1 1 (-50) v)].
Defined.

(** C6.  For every valid configuration and every grid point [x], the
    initial wave function is
    (2 pi w^2)^(-1/4) * exp(-(x - c)^2 / (4 w^2)) * exp(i k x),
    with [w] the packet width, [c] the packet center and [k] the wave
    number. *)
Theorem initial_wave_packet (N : nat) (dt V0 a k w c x_min x_max : R) :
  valid_configuration N dt a w x_min x_max ->
  exists e : WavePacket N,
    __init__ N dt V0 a k w c x_min x_max = Ok e /\
    forall i : 'I_N,
      let x := nth 0 (x_values e) i in
      x = (x_min + INR i * delta_x e)%coqR /\
      wave_function e i ord0
      = RtoC (Rpower (2 * PI * w ^ 2) (- (1 / 4)))%coqR
        * RtoC (exp (- ((x - c) ^ 2 / (4 * w ^ 2))))%coqR
        * cexp (Ci * RtoC k * RtoC x).
Proof.
move=> /valid_init [N1 xm w0]; eexists; split; first exact: init_ok.
move=> i /=; split; first by rewrite nth_linspace.
rewrite mxE /initial_wave_function /pow_float mulrC mulrA.
by congr (RtoC (Rpower _ _) * RtoC (exp _) * _); lra.
Qed.

Lemma initial_wave_packet_witness :
  valid_configuration 500 5 10 5 (-200) 200 /\
  exists e : WavePacket 500,
    __init__ 500 5 1 10 1 5 (-50) (-200) 200 = Ok e /\
    forall i : 'I_500,
      let x := nth 0 (x_values e) i in
      x = (-200 + INR i * delta_x e)%coqR /\
      wave_function e i ord0
      = RtoC (Rpower (2 * PI * 5 ^ 2) (- (1 / 4)))%coqR
        * RtoC (exp (- ((x - (-50)) ^ 2 / (4 * 5 ^ 2))))%coqR
        * cexp (Ci * RtoC 1 * RtoC x).
Proof.
have v : valid_configuration 500 5 10 5 (-200) 200 by split=> //; lra.
split; [exact: v | exact: (initial_wave_packet 1 1 (-50) v)].
Defined.

(** ** The step: normalization, frame and the degenerate case *)


Lemma RtoC_neq0 (x : R) : (x <> 0)%coqR -> RtoC x != 0.
Proof. by move=> /eqP x0; rewrite fmorph_eq0. Qed.

Lemma cexp_neq0 (z : complex) : cexp z != 0.
Proof.
apply: (@mulf_neq0 complex).
  by apply: RtoC_neq0; have := exp_pos (real z); lra.
apply/eqP => -[c0 s0]; have := sin2_cos2 (imag z).
by rewrite c0 s0 /Rsqr; lra.
Qed.

Lemma initial_wave_function_neq0 (k w c x : R) :
  initial_wave_function k w c x != 0.
Proof.
rewrite /initial_wave_function.
apply: mulf_neq0; [apply: mulf_neq0; [apply: RtoC_neq0 | exact: cexp_neq0]
                  | apply: RtoC_neq0].
- by have := exp_pos ((- (x - c) ^ 2) / (4 * w ^ 2))%coqR; lra.
- rewrite /pow_float /Rpower.
  by have := exp_pos (- 0.25 * ln (2 * PI * w ^ 2))%coqR; lra.
Qed.

Lemma constructed_live N dt V0 a k w c x_min x_max :
  (0 < N)%N -> live (constructed N dt V0 a k w c x_min x_max).
Proof.
move=> N0; split=> /=.
  rewrite unitmx_mul unitmx_inv backward_unit ?forward_unit //;
    exact: hamiltonian_sym.
move=> /matrixP /(_ (Ordinal N0) ord0); rewrite !mxE => /eqP.
by rewrite (negbTE (initial_wave_function_neq0 _ _ _ _)).
Qed.


Lemma notebook_engine_total : total_probability notebook_engine <> 0.
Proof. exact/live_total_probability/constructed_live. Qed.

Lemma total_probability_gt0 (N : nat) (w : WavePacket N) :
  total_probability w <> 0 -> (0 < total_probability w)%coqR.
Proof. by have := total_probability_ge0 w; to_R; lra. Qed.

Lemma pow_float_half (t : R) : (0 < t)%coqR -> (pow_float t 0.5 ^ 2)%coqR = t.
Proof.
move=> t0; have -> : (0.5 = / 2)%coqR by lra.
by rewrite /pow_float Rpower_sqrt // pow2_sqrt //; lra.
Qed.

Lemma cabs_sq_div (z : complex) (r : R) :
  (r <> 0)%coqR -> (cabs (z / RtoC r)%R ^ 2 = cabs z ^ 2 / r ^ 2)%coqR.
Proof.
by move=> r0; rewrite !cabs_sq; case: z => x y; to_R; field.
Qed.

Lemma sum_density (N : nat) (w : WavePacket N) :
  total_probability w <> 0 ->
  \sum_i (abs_squared (evolved w) i ord0 / total_probability w)%coqR = 1.
Proof.
move=> t0.
rewrite -[LHS]/(\sum_i (abs_squared (evolved w) i ord0
                         * (total_probability w)^-1)).
rewrite -mulr_suml -py_sum_entries -/(total_probability w).
by rewrite mulfV //; apply/eqP.
Qed.

Lemma renormalized_density_ge0 (N : nat) (w : WavePacket N) (i : 'I_N) :
  total_probability w <> 0 ->
  (0 <= prob_density (renormalized w) i ord0)%coqR.
Proof.
move=> t0; rewrite /= !mxE; apply: Rmult_le_pos; first exact: cabs_sq_ge0.
by apply/Rlt_le/Rinv_0_lt_compat/total_probability_gt0.
Qed.

Lemma renormalized_density_sum (N : nat) (w : WavePacket N) :
  total_probability w <> 0 ->
  py_sum (entries (prob_density (renormalized w))) = 1%coqR.
Proof.
move=> t0; rewrite py_sum_entries /= -[RHS](sum_density t0).
by apply: eq_bigr => i _; rewrite mxE.
Qed.

(** C2.  In every state of an engine whose total probability is not
    zero, a call of [evolve_wave_function] returns a density whose entries
    are all at least [0] and sum to [1]. *)
Theorem density_normalized (N : nat) (w : WavePacket N) :
  total_probability w <> 0 ->
  exists (w' : WavePacket N) (density : 'cV[R]_N),
    [/\ evolve_wave_function w = Ok (w', density),
        forall i, (0 <= density i ord0)%coqR
      & py_sum (entries density) = 1%coqR].
Proof.
move=> t0; exists (renormalized w), (prob_density (renormalized w)).
split; first exact: evolve_ok.
- by move=> i; exact: renormalized_density_ge0.
- exact: renormalized_density_sum.
Qed.

(** C10.  After a call of [evolve_wave_function] with a total probability
    that is not zero, the stored wave function is normalized, the sum of
    [|wave_function[i]|^2] being [1], and the returned density, which is the
    stored [prob_density], is [|wave_function[i]|^2] at every grid point. *)
Theorem wave_function_renormalized (N : nat) (w : WavePacket N) :
  total_probability w <> 0 ->
  exists (w' : WavePacket N) (density : 'cV[R]_N),
    [/\ evolve_wave_function w = Ok (w', density),
        py_sum (entries (abs_squared (wave_function w'))) = 1%coqR,
        forall i, density i ord0 = (cabs (wave_function w' i ord0) ^ 2)%coqR
      & prob_density w' = density].
Proof.
move=> t0; exists (renormalized w), (prob_density (renormalized w)).
have tpos := total_probability_gt0 t0.
have r0 : (pow_float (total_probability w) 0.5 <> 0)%coqR.
  by move=> r0; have := pow_float_half tpos; rewrite r0; lra.
have dens i : prob_density (renormalized w) i ord0
              = (cabs (wave_function (renormalized w) i ord0) ^ 2)%coqR.
  by rewrite /= !mxE cabs_sq_div // pow_float_half.
split=> //; first exact: evolve_ok.
rewrite py_sum_entries -[RHS](sum_density t0).
by apply: eq_bigr => i _; rewrite mxE -dens /= mxE.
Qed.

Lemma density_normalized_witness :
  total_probability notebook_engine <> 0 /\
  exists (w' : WavePacket 500) (density : 'cV[R]_500),
    [/\ evolve_wave_function notebook_engine = Ok (w', density),
        forall i, (0 <= density i ord0)%coqR
      & py_sum (entries density) = 1%coqR].
Proof.
split; first exact: notebook_engine_total.
exact: (density_normalized notebook_engine_total).
Defined.

Lemma wave_function_renormalized_witness :
  total_probability notebook_engine <> 0 /\
  exists (w' : WavePacket 500) (density : 'cV[R]_500),
    [/\ evolve_wave_function notebook_engine = Ok (w', density),
        py_sum (entries (abs_squared (wave_function w'))) = 1%coqR,
        forall i, density i ord0 = (cabs (wave_function w' i ord0) ^ 2)%coqR
      & prob_density w' = density].
Proof.
split; first exact: notebook_engine_total.
exact: (wave_function_renormalized notebook_engine_total).
Defined.

(** C9.  A call of [evolve_wave_function] leaves the grid positions, the
    grid step, the potential profile, the Hamiltonian that they determine
    and the propagation operator as they were, as well as the scalar
    parameters: only [wave_function] and [prob_density] change. *)
Theorem step_frame (N : nat) (w w' : WavePacket N) (density : 'cV[R]_N) :
  evolve_wave_function w = Ok (w', density) ->
  [/\ x_values w' = x_values w,
      delta_x w' = delta_x w,
      potential_barrier w' = potential_barrier w,
      hamiltonian_matrix N (delta_x w') (potential_barrier w')
      = hamiltonian_matrix N (delta_x w) (potential_barrier w)
    & evolution_operator w' = evolution_operator w]
  /\ [/\ time_step w' = time_step w,
         potential_height w' = potential_height w,
         potential_width w' = potential_width w,
         packet_width w' = packet_width w
       & wave_number w' = wave_number w /\ packet_center w' = packet_center w].
Proof.
by rewrite /evolve_wave_function; case: ifP => // _ [<- _].
Qed.

Lemma step_frame_witness :
  let w := notebook_engine in
  let w' := renormalized w in
  evolve_wave_function w = Ok (w', prob_density w') /\
  [/\ x_values w' = x_values w,
      delta_x w' = delta_x w,
      potential_barrier w' = potential_barrier w,
      hamiltonian_matrix 500 (delta_x w') (potential_barrier w')
      = hamiltonian_matrix 500 (delta_x w) (potential_barrier w)
    & evolution_operator w' = evolution_operator w]
  /\ [/\ time_step w' = time_step w,
         potential_height w' = potential_height w,
         potential_width w' = potential_width w,
         packet_width w' = packet_width w
       & wave_number w' = wave_number w /\ packet_center w' = packet_center w].
Proof.
have ev := evolve_ok notebook_engine_total.
split; [exact: ev | exact: (step_frame ev)].
Defined.


Lemma collapsed_total : total_probability collapsed = 0.
Proof.
rewrite total_probabilityE /evolved [wave_function _]/= mulmx0.
by apply: big1 => i _; rewrite mxE cabs_sq /=; to_R; ring.
Qed.

(** C4 does not hold as stated: on a state whose total probability is [0]
    the call does not raise [DegenerateState]. *)
Lemma zero_total_no_degenerate_state :
  total_probability collapsed = 0 /\
  evolve_wave_function collapsed <> Raise DegenerateState.
Proof.
by split; [exact: collapsed_total | rewrite (evolve_nan collapsed_total)].
Qed.

(** C4, amended.  When the total probability is [0] the call raises no
    exception at all: numpy divides by zero and the arrays are left
    non-finite. *)
Theorem zero_total_divides_by_zero (N : nat) (w : WavePacket N) :
  total_probability w = 0 ->
  evolve_wave_function w = NonFinite /\
  forall e : exn, evolve_wave_function w <> Raise e.
Proof. by move=> t0; rewrite (evolve_nan t0). Qed.

Lemma zero_total_divides_by_zero_witness :
  total_probability collapsed = 0 /\
  evolve_wave_function collapsed = NonFinite /\
  forall e : exn, evolve_wave_function collapsed <> Raise e.
Proof.
split; first exact: collapsed_total.
exact: (zero_total_divides_by_zero collapsed_total).
Defined.

(** ** Construction without validation *)

Lemma init_never_invalid_configuration N dt V0 a k w c x_min x_max :
  __init__ N dt V0 a k w c x_min x_max <> Raise InvalidConfiguration.
Proof.
rewrite /__init__; case: (linspace _ _ _) => xs [dx|];
  do ?[case: ifP => // _]; rewrite /la_inv; by case: ifP.
Qed.

Lemma init_zero_width N dt V0 a k c x_min x_max :
  __init__ N dt V0 a k 0%coqR c x_min x_max = Raise ZeroDivisionError.
Proof. by rewrite /__init__; case: (linspace _ _ _) => xs step; rewrite eqxx. Qed.

Lemma zero_step_operator N V0 a k w c x_min x_max :
  evolution_operator (constructed N 0%coqR V0 a k w c x_min x_max) = 1%:M.
Proof.
rewrite /= /backward_part /forward_part.
have -> : RtoC 0%coqR = 0 by [].
by rewrite mul0r !scale0r subr0 addr0 invmx1 mulmx1.
Qed.

(** C3 does not hold as stated: with a time step of [0] the constructor
    returns an engine. *)
Lemma zero_time_step_constructs :
  __init__ 500 0 1 10 1 5 (-50) (-200) 200
  = Ok (constructed 500 0 1 10 1 5 (-50) (-200) 200).
Proof. by apply: init_ok => //; lra. Qed.

Lemma new_never_invalid_configuration g dt V0 a k w c x_min x_max :
  new_WavePacket g dt V0 a k w c x_min x_max <> Raise InvalidConfiguration.
Proof.
case: g => [N|n] //=.
have := @init_never_invalid_configuration N dt V0 a k w c x_min x_max.
by case: (__init__ _ _ _ _ _ _ _ _ _) => // e ne [] /(congr1 Raise).
Qed.

Lemma new_ok N dt V0 a k w c x_min x_max :
  (1 < N)%N -> x_min <> x_max -> (w <> 0)%coqR ->
  new_WavePacket N%:Z dt V0 a k w c x_min x_max
  = Ok (existT (fun N => WavePacket N) N
          (constructed N dt V0 a k w c x_min x_max)).
Proof. by move=> N1 xm w0; rewrite /new_WavePacket init_ok. Qed.

Lemma init_no_points dt V0 a k w c x_min x_max :
  __init__ 0 dt V0 a k w c x_min x_max
  = Raise (if w == 0 then ZeroDivisionError else ValueError).
Proof. by rewrite /__init__ /linspace /=; case: ifP. Qed.

Lemma init_no_step N dt V0 a k w c x :
  (1 < N)%N ->
  __init__ N dt V0 a k w c x x
  = Raise (if w == 0 then ZeroDivisionError else RuntimeError).
Proof.
move=> N1; rewrite /__init__ (linspaceE _ _ N1); case: ifP => // _.
rewrite (gtn_eqF (ltnW N1)).
have -> : ((x - x) / INR (N - 1))%coqR = 0 by rewrite Rminus_diag /Rdiv Rmult_0_l.
by rewrite eqxx.
Qed.

(** C3, amended.  No call of the constructor fails with
    [InvalidConfiguration]: the source validates nothing.  No engine is
    produced for a negative grid size ([ValueError]), for a packet width of
    [0] ([ZeroDivisionError]), for a grid size of [0] (one of these two
    errors), and for [x_min = x_max] with at least two grid points
    ([ZeroDivisionError] or the [RuntimeError] of the inversion).  A time
    step of [0], a grid of two points and bounds in decreasing order are not
    rejected: [WavePacket(500, 0, 1, 10, 1, 5, -50, -200, 200)] produces an
    engine, whose propagation operator is the identity, and so do
    [WavePacket(2, 5, 1, 10, 1, 5, -50, -200, 200)] and
    [WavePacket(500, 5, 1, 10, 1, 5, -50, 200, -200)]. *)
Theorem construction_without_validation
    (grid_size : int) (n N : nat) (dt V0 a k w c x_min x_max : R) :
  [/\ new_WavePacket grid_size dt V0 a k w c x_min x_max
      <> Raise InvalidConfiguration,
      new_WavePacket (Negz n) dt V0 a k w c x_min x_max = Raise ValueError,
      w = 0%coqR ->
      new_WavePacket N%:Z dt V0 a k w c x_min x_max = Raise ZeroDivisionError,
      new_WavePacket 0%:Z dt V0 a k w c x_min x_max = Raise ZeroDivisionError \/
      new_WavePacket 0%:Z dt V0 a k w c x_min x_max = Raise ValueError
    & (1 < N)%N -> x_min = x_max ->
      new_WavePacket N%:Z dt V0 a k w c x_min x_max = Raise ZeroDivisionError \/
      new_WavePacket N%:Z dt V0 a k w c x_min x_max = Raise RuntimeError] /\
  [/\ new_WavePacket 500%:Z 0 1 10 1 5 (-50) (-200) 200
      = Ok (existT (fun N => WavePacket N) 500%N
              (constructed 500 0 1 10 1 5 (-50) (-200) 200)),
      evolution_operator (constructed 500 0 1 10 1 5 (-50) (-200) 200) = 1%:M,
      new_WavePacket 2%:Z 5 1 10 1 5 (-50) (-200) 200
      = Ok (existT (fun N => WavePacket N) 2%N
              (constructed 2 5 1 10 1 5 (-50) (-200) 200))
    & new_WavePacket 500%:Z 5 1 10 1 5 (-50) 200 (-200)
      = Ok (existT (fun N => WavePacket N) 500%N
              (constructed 500 5 1 10 1 5 (-50) 200 (-200)))].
Proof.
split; split.
- exact: new_never_invalid_configuration.
- by [].
- by move=> ->; rewrite /new_WavePacket init_zero_width.
- by rewrite /new_WavePacket init_no_points; case: ifP => _; [left | right].
- move=> N1 ->; rewrite /new_WavePacket init_no_step //.
  by case: ifP => _; [left | right].
- by apply: new_ok => //; lra.
- exact: zero_step_operator.
- by apply: new_ok => //; lra.
- by apply: new_ok => //; lra.
Qed.

Lemma construction_without_validation_witness :
  [/\ new_WavePacket 500%:Z 5 1 10 1 0 (-50) (-200) 200
      = Raise ZeroDivisionError,
      new_WavePacket 500%:Z 5 1 10 1 5 (-50) 7 7 = Raise ZeroDivisionError \/
      new_WavePacket 500%:Z 5 1 10 1 5 (-50) 7 7 = Raise RuntimeError
    & new_WavePacket (Negz 2) 5 1 10 1 5 (-50) (-200) 200 = Raise ValueError].
Proof.
split.
- case: (construction_without_validation 500%:Z 0 500 5 1 10 1 0 (-50) (-200) 200).
  by case=> _ _ h _ _ _; apply: h.
- case: (construction_without_validation 500%:Z 0 500 5 1 10 1 5 (-50) 7 7).
  by case=> _ _ _ _ h _; apply: h.
- case: (construction_without_validation 500%:Z 2 500 5 1 10 1 5 (-50) (-200) 200).
  by case.
Defined.

(** ** Reflection of the grid and free propagation *)

Lemma rev_ord_val (N : nat) (i : 'I_N) : (rev_ord i : nat) = (N - 1 - i)%N.
Proof. by rewrite /= -subnDA add1n. Qed.

Section Reflection.

Variable N : nat.
Implicit Types (A B : 'M[complex]_N) (v : 'cV[complex]_N).

Lemma reflect_mxM A B : reflect_mx (A *m B) = reflect_mx A *m reflect_mx B.
Proof.
apply/matrixP => i j; rewrite !mxE (reindex_inj rev_ord_inj) /=.
by apply: eq_bigr => l _; rewrite !mxE.
Qed.

Lemma reflect_mx_vec A v :
  reflect_vec (A *m v) = reflect_mx A *m reflect_vec v.
Proof.
apply/matrixP => i j; rewrite !mxE (reindex_inj rev_ord_inj) /=.
by apply: eq_bigr => l _; rewrite !mxE !ord1.
Qed.

Lemma reflect_mx1 : reflect_mx (1%:M : 'M[complex]_N) = 1%:M.
Proof. by apply/matrixP => i j; rewrite !mxE (inj_eq rev_ord_inj). Qed.

Lemma reflect_invmx A :
  A \in unitmx -> reflect_mx A = A -> reflect_mx (invmx A) = invmx A.
Proof.
move=> un sym; rewrite -[LHS]mulmx1 -(mulmxV un) mulmxA.
by rewrite -{2}sym -reflect_mxM (mulVmx un) reflect_mx1 mul1mx.
Qed.

Lemma reflect_backward dt (H : 'M[R]_N) :
  reflect_mx H = H -> reflect_mx (backward_part dt H) = backward_part dt H.
Proof.
move=> /matrixP sym; apply/matrixP => i j; have := sym i j.
by rewrite !mxE (inj_eq rev_ord_inj) => ->.
Qed.

Lemma reflect_forward dt (H : 'M[R]_N) :
  reflect_mx H = H -> reflect_mx (forward_part dt H) = forward_part dt H.
Proof.
move=> /matrixP sym; apply/matrixP => i j; have := sym i j.
by rewrite !mxE (inj_eq rev_ord_inj) => ->.
Qed.

Lemma rev_ord_succ (i j : 'I_N) :
  ((rev_ord i).+1 == rev_ord j :> nat) = (j.+1 == i :> nat).
Proof.
by rewrite /= subnSK // eqn_sub2lE // 1?ltnW // eq_sym.
Qed.

Lemma reflect_hamiltonian dx (pot : seq R) :
  size pot = N ->
  (forall i : 'I_N, nth 0 pot (rev_ord i) = nth 0 pot i) ->
  reflect_mx (hamiltonian_matrix N dx pot) = hamiltonian_matrix N dx pot.
Proof.
move=> sz sym; apply/matrixP => i j; rewrite mxE !hamiltonian_entry //.
by rewrite (inj_eq rev_ord_inj) !rev_ord_succ sym orbC.
Qed.

End Reflection.

Lemma barrier_zero_height (a : R) (xs : seq R) (i : nat) :
  nth 0 (barrier 0%coqR a xs) i = 0.
Proof.
have [ixs|ixs] := ltnP i (size xs); last by rewrite nth_default // size_barrier.
by rewrite nth_barrier //; case: ifP.
Qed.

Lemma linspace_reflect (x_min x_max : R) (N : nat) (i : 'I_N) :
  (1 < N)%N ->
  let c := ((x_min + x_max) / 2)%coqR in
  let xs := (linspace x_min x_max N).1 in
  (nth 0 xs (rev_ord i) - c = - (nth 0 xs i - c))%coqR.
Proof.
move=> N1 /=; rewrite !nth_linspace // ?rev_ord_proof //.
have iN : (i.+1 <= N)%coq_nat by apply/leP.
have N1' : (1 <= N)%coq_nat by apply/leP; exact: ltnW.
rewrite -!minusE (minus_INR _ _ iN) (minus_INR _ _ N1') S_INR /=; field.
have : (1 < INR N)%coqR by rewrite -/(INR 1); apply/lt_INR/ltP.
by lra.
Qed.

Lemma initial_wave_function_reflect
    (w x_min x_max : R) (N : nat) (i : 'I_N) :
  (1 < N)%N ->
  let c := ((x_min + x_max) / 2)%coqR in
  let xs := (linspace x_min x_max N).1 in
  initial_wave_function 0%coqR w c (nth 0 xs (rev_ord i))
  = initial_wave_function 0%coqR w c (nth 0 xs i).
Proof.
move=> N1 c xs; rewrite /initial_wave_function linspace_reflect //.
have -> : RtoC 0%coqR = 0 by [].
rewrite !mulr0 !mul0r -/xs -/c; set u := (nth 0 xs i - c)%coqR.
by have -> : ((- u) ^ 2 = u ^ 2)%coqR by ring.
Qed.


Lemma evolved_reflect (N : nat) (w : WavePacket N) (i : 'I_N) :
  mirror_symmetric w -> evolved w (rev_ord i) ord0 = evolved w i ord0.
Proof.
move=> [sU spsi].
have /matrixP /(_ i ord0) : reflect_vec (evolved w) = evolved w.
  by rewrite /evolved reflect_mx_vec sU spsi.
by rewrite mxE.
Qed.

Lemma renormalized_live (N : nat) (w : WavePacket N) :
  live w -> live (renormalized w).
Proof.
move=> lw; have t0 := live_total_probability lw.
have tpos := total_probability_gt0 t0.
case: lw => un psi0; split=> //= psi'0.
apply: t0; rewrite total_probabilityE; apply: big1 => i _.
move/matrixP: psi'0 => /(_ i ord0); set E := evolved w; rewrite !mxE => /eqP.
rewrite mulf_eq0 invr_eq0 fmorph_eq0 => /orP [/eqP -> | /eqP r0].
  by rewrite cabs_sq /=; to_R; ring.
by have := pow_float_half tpos; rewrite r0; to_R; lra.
Qed.

Lemma renormalized_symmetric (N : nat) (w : WavePacket N) :
  mirror_symmetric w -> mirror_symmetric (renormalized w).
Proof.
move=> sw; case: (sw) => sU _; split=> //=.
apply/matrixP => i j; rewrite !ord1 /=; have := evolved_reflect i sw.
by set E := evolved w; rewrite !mxE => ->.
Qed.

Lemma density_reflect (N : nat) (w : WavePacket N) (i : 'I_N) :
  mirror_symmetric w ->
  prob_density (renormalized w) i ord0
  = prob_density (renormalized w) (rev_ord i) ord0.
Proof.
move=> sw; rewrite /=; have := evolved_reflect i sw.
by set E := evolved w; rewrite !mxE => ->.
Qed.

Lemma advance_symmetric (N : nat) (w : WavePacket N) (k : nat) :
  live w -> mirror_symmetric w ->
  exists (w' : WavePacket N) (density : 'cV[R]_N),
    [/\ advance k.+1 w = Ok (w', density), live w', mirror_symmetric w'
      & forall i, density i ord0 = density (rev_ord i) ord0].
Proof.
move=> lw sw; elim: k => [|k [w' [d [adv lw' sw' _]]]].
  exists (renormalized w), (prob_density (renormalized w)).
  split; [| exact: renormalized_live | exact: renormalized_symmetric
          | by move=> i; exact: density_reflect].
  by rewrite /= evolve_ok //; exact: live_total_probability.
exists (renormalized w'), (prob_density (renormalized w')).
split; [| exact: renormalized_live | exact: renormalized_symmetric
        | by move=> i; exact: density_reflect].
rewrite [advance _ _]/(bind (advance k.+1 w) _) adv /=.
by rewrite evolve_ok //; exact: live_total_probability.
Qed.

(** Every run of a constructed engine goes on step after step, and each
    step returns a normalized density. *)
Lemma advance_live (N : nat) (w : WavePacket N) (k : nat) :
  live w ->
  exists w' : WavePacket N,
    [/\ advance k.+1 w = Ok (w', prob_density w'), live w',
        forall i, (0 <= prob_density w' i ord0)%coqR
      & py_sum (entries (prob_density w')) = 1%coqR].
Proof.
move=> lw; elim: k => [|k [w' [adv lw' _ _]]].
  have t0 := live_total_probability lw; exists (renormalized w).
  split; [by rewrite /= evolve_ok | exact: renormalized_live
         | by move=> i; exact: renormalized_density_ge0
         | exact: renormalized_density_sum].
have t0 := live_total_probability lw'; exists (renormalized w').
split; [| exact: renormalized_live
        | by move=> i; exact: renormalized_density_ge0
        | exact: renormalized_density_sum].
by rewrite [advance _ _]/(bind (advance k.+1 w) _) adv /= evolve_ok.
Qed.

(** In exact arithmetic, where the Gaussian never underflows: for every
    valid configuration all the steps of a run succeed, and the density
    that the last one returns has entries that are at least [0] and sum
    to [1]. *)
Lemma constructed_run_normalized N dt V0 a k w c x_min x_max (steps : nat) :
  valid_configuration N dt a w x_min x_max ->
  exists e w' : WavePacket N,
    [/\ __init__ N dt V0 a k w c x_min x_max = Ok e,
        advance steps.+1 e = Ok (w', prob_density w'),
        forall i, (0 <= prob_density w' i ord0)%coqR
      & py_sum (entries (prob_density w')) = 1%coqR].
Proof.
move=> /valid_init [N1 xm w0].
have [w' [adv _ pos sum1]] :=
  advance_live steps (constructed_live dt V0 a k w c x_min x_max (ltnW N1)).
by exists (constructed N dt V0 a k w c x_min x_max), w'; split=> //; exact: init_ok.
Qed.

Lemma constructed_symmetric N dt a w x_min x_max :
  (1 < N)%N ->
  mirror_symmetric
    (constructed N dt 0%coqR a 0%coqR w ((x_min + x_max) / 2)%coqR x_min x_max).
Proof.
move=> N1.
set H := hamiltonian_matrix N ((x_max - x_min) / INR (N - 1))%coqR
           (barrier 0%coqR a (linspace x_min x_max N).1).
have symH : reflect_mx H = H.
  apply: reflect_hamiltonian; first by rewrite size_barrier size_linspace.
  by move=> i; rewrite !barrier_zero_height.
split=> /=.
  rewrite reflect_mxM reflect_invmx ?reflect_backward ?reflect_forward //.
  by apply: backward_unit; exact: hamiltonian_sym.
by apply/matrixP => i j; rewrite !mxE initial_wave_function_reflect.
Qed.

(** C8.  For an engine constructed with [potential_height = 0],
    [wave_number = 0] and the packet centered at the middle of the grid,
    every number [k + 1] of successive steps succeeds and the density
    returned by the last one is symmetric: [density[i] = density[N - 1 - i]]
    for every [i]. *)
Theorem free_propagation_symmetric
    (N : nat) (dt a w x_min x_max : R) (k : nat) :
  valid_configuration N dt a w x_min x_max ->
  exists e : WavePacket N,
    __init__ N dt 0%coqR a 0%coqR w ((x_min + x_max) / 2)%coqR x_min x_max
    = Ok e /\
    exists (w' : WavePacket N) (density : 'cV[R]_N),
      advance k.+1 e = Ok (w', density) /\
      forall i : 'I_N,
        density i ord0 = density (rev_ord i) ord0 /\
        (rev_ord i : nat) = (N - 1 - i)%N.
Proof.
move=> /valid_init [N1 xm w0]; eexists; split; first exact: init_ok.
have [w' [d [adv _ _ sym]]] :=
  advance_symmetric k (constructed_live dt 0%coqR a 0%coqR w
                         ((x_min + x_max) / 2)%coqR x_min x_max (ltnW N1))
                      (constructed_symmetric dt a w x_min x_max N1).
by exists w', d; split=> // i; split; [exact: sym | exact: rev_ord_val].
Qed.

Lemma free_propagation_symmetric_witness :
  valid_configuration 500 5 10 5 (-200) 200 /\
  exists e : WavePacket 500,
    __init__ 500 5 0 10 0 5 ((-200 + 200) / 2) (-200) 200 = Ok e /\
    exists (w' : WavePacket 500) (density : 'cV[R]_500),
      advance 100 e = Ok (w', density) /\
      forall i : 'I_500,
        density i ord0 = density (rev_ord i) ord0 /\
        (rev_ord i : nat) = (500 - 1 - i)%N.
Proof.
have v : valid_configuration 500 5 10 5 (-200) 200 by split=> //; lra.
split; [exact: v | exact: (free_propagation_symmetric 99 v)].
Defined.

(** * Further properties of the engine and of the animation *)

(** ** Conjugation, adjoints and the unitary evolution matrix *)

Lemma conjc_mul_abs (z : complex) : conjc z * z = RtoC (cabs z ^ 2)%coqR.
Proof. by rewrite cabs_sq; apply: complex_eq; rewrite /=; to_R; ring. Qed.

Lemma adjointM m n p (A : 'M[complex]_(m, n)) (B : 'M[complex]_(n, p)) :
  adjoint (A *m B) = adjoint B *m adjoint A.
Proof. by rewrite /adjoint map_mxM trmx_mul. Qed.

Lemma adjoint_inv n (A : 'M[complex]_n) : adjoint (invmx A) = invmx (adjoint A).
Proof. by rewrite /adjoint map_invmx trmx_inv. Qed.

Lemma norm2_adjoint n (v : 'cV[complex]_n) :
  (adjoint v *m v) ord0 ord0 = RtoC (\sum_i (cabs (v i ord0) ^ 2)%coqR).
Proof.
rewrite mxE rmorph_sum; apply: eq_bigr => i _.
by rewrite !mxE conjc_mul_abs.
Qed.

Lemma adjoint_backward N dt (H : 'M[R]_N) :
  H^T = H -> adjoint (backward_part dt H) = forward_part dt H.
Proof.
move=> /matrixP symH; apply/matrixP => i j; have := symH j i.
rewrite backward_partE forward_partE !mxE eq_sym => ->.
case: (i == j); apply: complex_eq; rewrite /=; to_R; field.
Qed.

Lemma adjoint_forward N dt (H : 'M[R]_N) :
  H^T = H -> adjoint (forward_part dt H) = backward_part dt H.
Proof.
move=> /matrixP symH; apply/matrixP => i j; have := symH j i.
rewrite backward_partE forward_partE !mxE eq_sym => ->.
case: (i == j); apply: complex_eq; rewrite /=; to_R; field.
Qed.

Lemma backward_forwardC N dt (H : 'M[R]_N) :
  backward_part dt H *m forward_part dt H
  = forward_part dt H *m backward_part dt H.
Proof.
rewrite /backward_part /forward_part; set X := _ *: _.
rewrite !mulmxDl !mulmxDr !mul1mx !mulmx1 !mulNmx !mulmxN.
by rewrite addrA addrK [RHS]addrA subrK.
Qed.


Lemma invmx_comm n (A B : 'M[complex]_n) :
  A \in unitmx -> A *m B = B *m A -> invmx A *m B = B *m invmx A.
Proof.
move=> unA comm; rewrite -[LHS]mulmx1 -(mulmxV unA) mulmxA.
by rewrite -[invmx A *m B *m A]mulmxA -comm mulmxA (mulVmx unA) mul1mx.
Qed.

Lemma crank_nicolson_adjoint N dt (H : 'M[R]_N) :
  H^T = H -> adjoint (crank_nicolson dt H) *m crank_nicolson dt H = 1%:M.
Proof.
move=> symH; have unA := backward_unit dt symH; have unB := forward_unit dt symH.
rewrite /crank_nicolson adjointM adjoint_inv adjoint_forward // adjoint_backward //.
rewrite (invmx_comm unA (backward_forwardC dt H)).
by rewrite mulmxA -[_ *m invmx _ *m _]mulmxA (mulVmx unB) mulmx1 (mulmxV unA).
Qed.

Lemma backward_partN N dt (H : 'M[R]_N) :
  backward_part (- dt)%coqR H = forward_part dt H.
Proof.
rewrite /backward_part /forward_part.
have -> : RtoC (- dt)%coqR = - RtoC dt by apply: complex_eq; rewrite /=; to_R; ring.
by rewrite mulNr scaleNr opprK.
Qed.

Lemma forward_partN N dt (H : 'M[R]_N) :
  forward_part (- dt)%coqR H = backward_part dt H.
Proof.
rewrite /backward_part /forward_part.
have -> : RtoC (- dt)%coqR = - RtoC dt by apply: complex_eq; rewrite /=; to_R; ring.
by rewrite mulNr scaleNr.
Qed.

Lemma norm2_crank_nicolson N dt (H : 'M[R]_N) (v : 'cV[complex]_N) :
  H^T = H ->
  \sum_i (cabs ((crank_nicolson dt H *m v) i ord0) ^ 2)%coqR
  = \sum_i (cabs (v i ord0) ^ 2)%coqR.
Proof.
have RtoC_inj : injective RtoC by move=> x y [].
move=> symH; apply: RtoC_inj; rewrite -!norm2_adjoint adjointM.
by rewrite mulmxA -[adjoint v *m _ *m _]mulmxA crank_nicolson_adjoint // mulmx1.
Qed.

(** ** The grid *)

Lemma Rpower_1_l (y : R) : Rpower 1 y = 1%coqR.
Proof. by rewrite /Rpower ln_1 Rmult_0_r exp_0. Qed.

Lemma constructed_operator N dt V0 a k w c x_min x_max :
  evolution_operator (constructed N dt V0 a k w c x_min x_max)
  = crank_nicolson dt (hamiltonian_matrix N (delta_x (constructed N dt V0 a k w c x_min x_max))
                         (potential_barrier (constructed N dt V0 a k w c x_min x_max))).
Proof. by []. Qed.

(** X1.  For every valid configuration the grid has [N] points, starts at
    [x_min], ends at [x_max], and consecutive points differ by the grid
    step [delta_x], which is positive. *)
Theorem grid_uniform (N : nat) (dt V0 a k w c x_min x_max : R) :
  valid_configuration N dt a w x_min x_max ->
  exists e : WavePacket N,
    __init__ N dt V0 a k w c x_min x_max = Ok e /\
    [/\ size (x_values e) = N,
        nth 0 (x_values e) 0 = x_min,
        nth 0 (x_values e) N.-1 = x_max,
        (0 < delta_x e)%coqR
      & forall i, (i.+1 < N)%N ->
          (nth 0 (x_values e) i.+1 - nth 0 (x_values e) i)%coqR = delta_x e].
Proof.
move=> v; have [N3 xm _ _ _] := v; have [N1 _ w0] := valid_init v.
have N0 : INR (N - 1) <> 0%coqR.
  by apply: not_0_INR => /eqP; rewrite subn_eq0 leqNgt N1.
have Npos : (0 < INR (N - 1))%coqR.
  by apply: lt_0_INR; apply/ltP; rewrite subn_gt0.
eexists; split; first by apply: init_ok => //; lra.
split=> /=.
- exact: size_linspace.
- by rewrite nth_linspace // ?(ltnW N1) //=; lra.
- rewrite nth_linspace //; first by rewrite ltn_predL (ltnW N1).
  by rewrite -subn1; field.
- by apply: Rmult_lt_0_compat; [lra | exact: Rinv_0_lt_compat].
- move=> i iN; rewrite !nth_linspace // ?(ltnW iN) // S_INR; field.
  exact: N0.
Qed.

Lemma grid_uniform_witness :
  valid_configuration 500 5 10 5 (-200) 200 /\
  exists e : WavePacket 500,
    __init__ 500 5 1 10 1 5 (-50) (-200) 200 = Ok e /\
    [/\ size (x_values e) = 500%N,
        nth 0 (x_values e) 0 = (-200)%coqR,
        nth 0 (x_values e) 499 = 200%coqR,
        (0 < delta_x e)%coqR
      & forall i, (i.+1 < 500)%N ->
          (nth 0 (x_values e) i.+1 - nth 0 (x_values e) i)%coqR = delta_x e].
Proof.
have v : valid_configuration 500 5 10 5 (-200) 200 by split=> //; lra.
split; [exact: v | exact: (grid_uniform 1 1 (-50) v)].
Defined.

(** ** Time reversal and conservation of the norm *)

(** X4.  For every valid configuration the constructor also accepts the
    opposite time step, and the propagation operator it then builds is the
    inverse of the one for the time step itself: a step backwards in time
    undoes a step forwards. *)
Theorem time_reversal (N : nat) (dt V0 a k w c x_min x_max : R) :
  valid_configuration N dt a w x_min x_max ->
  exists e e' : WavePacket N,
    [/\ __init__ N dt V0 a k w c x_min x_max = Ok e,
        __init__ N (- dt)%coqR V0 a k w c x_min x_max = Ok e',
        evolution_operator e' *m evolution_operator e = 1%:M
      & evolution_operator e *m evolution_operator e' = 1%:M].
Proof.
move=> /valid_init [N1 xm w0].
exists (constructed N dt V0 a k w c x_min x_max),
       (constructed N (- dt)%coqR V0 a k w c x_min x_max).
split; [exact: init_ok | exact: init_ok | |];
  rewrite /= backward_partN forward_partN;
  set H := hamiltonian_matrix _ _ _;
  have symH : H^T = H by exact: hamiltonian_sym.
- rewrite mulmxA -[_ *m _ *m invmx _]mulmxA (mulmxV (backward_unit dt symH)).
  by rewrite mulmx1 (mulVmx (forward_unit dt symH)).
- rewrite mulmxA -[_ *m _ *m invmx _]mulmxA (mulmxV (forward_unit dt symH)).
  by rewrite mulmx1 (mulVmx (backward_unit dt symH)).
Qed.

Lemma time_reversal_witness :
  valid_configuration 500 5 10 5 (-200) 200 /\
  exists e e' : WavePacket 500,
    [/\ __init__ 500 5 1 10 1 5 (-50) (-200) 200 = Ok e,
        __init__ 500 (- 5) 1 10 1 5 (-50) (-200) 200 = Ok e',
        evolution_operator e' *m evolution_operator e = 1%:M
      & evolution_operator e *m evolution_operator e' = 1%:M].
Proof.
have v : valid_configuration 500 5 10 5 (-200) 200 by split=> //; lra.
split; [exact: v | exact: (time_reversal 1 1 (-50) v)].
Defined.

Lemma py_sum_abs_squared (N : nat) (psi : 'cV[complex]_N) :
  py_sum (entries (abs_squared psi)) = \sum_i (cabs (psi i ord0) ^ 2)%coqR.
Proof. by rewrite py_sum_entries; apply: eq_bigr => i _; rewrite mxE. Qed.

Lemma norm2_unitary (N : nat) (U : 'M[complex]_N) (psi : 'cV[complex]_N) :
  adjoint U *m U = 1%:M ->
  py_sum (entries (abs_squared (U *m psi)))
  = py_sum (entries (abs_squared psi)).
Proof.
move=> uni; have RtoC_inj : injective RtoC by move=> x y [].
rewrite !py_sum_abs_squared; apply: RtoC_inj.
rewrite -!norm2_adjoint adjointM.
by rewrite mulmxA -[adjoint _ *m _ *m _]mulmxA uni mulmx1.
Qed.

Lemma constructed_unitary N dt V0 a k w c x_min x_max :
  adjoint (evolution_operator (constructed N dt V0 a k w c x_min x_max))
  *m evolution_operator (constructed N dt V0 a k w c x_min x_max) = 1%:M.
Proof.
by rewrite constructed_operator crank_nicolson_adjoint //; exact: hamiltonian_sym.
Qed.

(** X3.  For every valid configuration the propagation operator is
    unitary: its conjugate transpose is its inverse, and applying it to any
    wave function leaves the sum of the squared moduli unchanged. *)
Theorem evolution_conserves_norm (N : nat) (dt V0 a k w c x_min x_max : R) :
  valid_configuration N dt a w x_min x_max ->
  exists e : WavePacket N,
    [/\ __init__ N dt V0 a k w c x_min x_max = Ok e,
        adjoint (evolution_operator e) *m evolution_operator e = 1%:M
      & forall psi : 'cV[complex]_N,
          py_sum (entries (abs_squared (evolution_operator e *m psi)))
          = py_sum (entries (abs_squared psi))].
Proof.
move=> /valid_init [N1 xm w0]; eexists; split; first exact: init_ok.
  exact: constructed_unitary.
by move=> psi; apply: norm2_unitary; exact: constructed_unitary.
Qed.

Lemma evolution_conserves_norm_witness :
  valid_configuration 500 5 10 5 (-200) 200 /\
  exists e : WavePacket 500,
    [/\ __init__ 500 5 1 10 1 5 (-50) (-200) 200 = Ok e,
        adjoint (evolution_operator e) *m evolution_operator e = 1%:M
      & forall psi : 'cV[complex]_500,
          py_sum (entries (abs_squared (evolution_operator e *m psi)))
          = py_sum (entries (abs_squared psi))].
Proof.
have v : valid_configuration 500 5 10 5 (-200) 200 by split=> //; lra.
split; [exact: v | exact: (evolution_conserves_norm 1 1 (-50) v)].
Defined.

Lemma renormalized_norm (N : nat) (w : WavePacket N) :
  total_probability w <> 0 ->
  py_sum (entries (abs_squared (wave_function (renormalized w)))) = 1%coqR.
Proof.
move=> t0; have tpos := total_probability_gt0 t0.
have r0 : (pow_float (total_probability w) 0.5 <> 0)%coqR.
  by move=> r0; have := pow_float_half tpos; rewrite r0; lra.
rewrite py_sum_entries -[RHS](sum_density t0); apply: eq_bigr => i _.
by rewrite /= !mxE cabs_sq_div // pow_float_half.
Qed.

Lemma renormalized_unit_total (N : nat) (w : WavePacket N) :
  total_probability w = 1%coqR ->
  wave_function (renormalized w) = evolved w /\
  prob_density (renormalized w) = abs_squared (evolved w).
Proof.
move=> t1; split; apply/matrixP => i j; rewrite /= !mxE !ord1 t1.
- rewrite /pow_float Rpower_1_l; have -> : RtoC 1%coqR = 1 by [].
  by rewrite divr1.
- by to_R; field.
Qed.

Lemma advance_unit_norm (N : nat) (w : WavePacket N) (k : nat) :
  live w ->
  adjoint (evolution_operator w) *m evolution_operator w = 1%:M ->
  exists w' : WavePacket N,
    [/\ advance k.+1 w = Ok (w', prob_density w'), live w',
        evolution_operator w' = evolution_operator w
      & py_sum (entries (abs_squared (wave_function w'))) = 1%coqR].
Proof.
move=> lw uni; elim: k => [|k [w' [adv lw' op _]]].
  have t0 := live_total_probability lw; exists (renormalized w).
  split=> //; [by rewrite /= evolve_ok | exact: renormalized_live
              | exact: renormalized_norm].
have t0 := live_total_probability lw'; exists (renormalized w').
split=> //; [| exact: renormalized_live | exact: renormalized_norm].
by rewrite [advance _ _]/(bind (advance k.+1 w) _) adv /= evolve_ok.
Qed.

(** X5.  For every valid configuration, after any number [steps + 1] of
    calls the total probability that the next call computes is exactly
    [1]: from the second call on the renormalization divides by [1], the
    new wave function is the propagation operator applied to the old one
    and the returned density is its squared modulus. *)
Theorem renormalization_trivial_after_first_step
    (N : nat) (dt V0 a k w c x_min x_max : R) (steps : nat) :
  valid_configuration N dt a w x_min x_max ->
  exists e w' w'' : WavePacket N,
    [/\ __init__ N dt V0 a k w c x_min x_max = Ok e,
        advance steps.+1 e = Ok (w', prob_density w'),
        total_probability w' = 1%coqR
      & evolve_wave_function w' = Ok (w'', prob_density w'')] /\
    wave_function w'' = evolution_operator w' *m wave_function w' /\
    prob_density w'' = abs_squared (wave_function w'').
Proof.
move=> /valid_init [N1 xm w0].
have [w' [adv lw' op n1]] :=
  advance_unit_norm steps
    (constructed_live dt V0 a k w c x_min x_max (ltnW N1))
    (constructed_unitary N dt V0 a k w c x_min x_max).
have t1 : total_probability w' = 1%coqR.
  by rewrite /total_probability /evolved norm2_unitary ?op //;
     exact: constructed_unitary.
have [psi dens] := renormalized_unit_total t1.
exists (constructed N dt V0 a k w c x_min x_max), w', (renormalized w').
split; last by rewrite dens psi.
split=> //; first exact: init_ok.
by apply: evolve_ok; rewrite t1; exact: R1_neq_R0.
Qed.


Lemma renormalization_trivial_after_first_step_witness :
  valid_configuration 500 5 10 5 (-200) 200 /\
  exists e w' w'' : WavePacket 500,
    [/\ __init__ 500 5 1 10 1 5 (-50) (-200) 200 = Ok e,
        advance 100 e = Ok (w', prob_density w'),
        total_probability w' = 1%coqR
      & evolve_wave_function w' = Ok (w'', prob_density w'')] /\
    wave_function w'' = evolution_operator w' *m wave_function w' /\
    prob_density w'' = abs_squared (wave_function w'').
Proof.
have v : valid_configuration 500 5 10 5 (-200) 200 by split=> //; lra.
split; first exact: v.
exact: (renormalization_trivial_after_first_step 1 1 (-50) 99 v).
Defined.

Lemma cabs_sq_mul (c z : complex) :
  (cabs (c * z)%R ^ 2 = cabs c ^ 2 * cabs z ^ 2)%coqR.
Proof. by rewrite !cabs_sq; case: c z => a b [x y]; to_R; ring. Qed.

Lemma abs_squared_scale (N : nat) (c : complex) (psi : 'cV[complex]_N) i :
  abs_squared (c *: psi) i ord0
  = (cabs c ^ 2 * abs_squared psi i ord0)%coqR.
Proof. by rewrite !mxE cabs_sq_mul. Qed.

Lemma evolved_rescaled (N : nat) (c : complex) (w : WavePacket N) :
  evolved (rescaled c w) = c *: evolved w.
Proof. by rewrite /evolved /= -scalemxAr. Qed.

Lemma total_probability_rescaled (N : nat) (c : complex) (w : WavePacket N) :
  total_probability (rescaled c w)
  = (cabs c ^ 2 * total_probability w)%coqR.
Proof.
rewrite /total_probability !py_sum_entries evolved_rescaled.
rewrite -[RHS]/((cabs c ^ 2)%coqR * _) mulr_sumr; apply: eq_bigr => i _.
exact: abs_squared_scale.
Qed.

Lemma cabs_sq_RtoC (x : R) : (cabs (RtoC x) ^ 2 = x ^ 2)%coqR.
Proof. by rewrite cabs_sq /=; ring. Qed.

Lemma cabs_sq_cexp_imaginary (t : complex) :
  real t = 0%coqR -> (cabs (cexp t) ^ 2)%coqR = 1%coqR.
Proof.
move=> re0; rewrite cabs_sq /cexp /= re0 exp_0.
by have := sin2_cos2 (imag t); rewrite /Rsqr; lra.
Qed.

(** X7.  For every valid configuration the squared modulus of the initial
    wave function at a grid point [x] is the Gaussian
    exp(-(x - c)^2 / (2 w^2)) / sqrt(2 pi w^2): the plane wave factor
    changes the phase only, so the wave number does not occur in it. *)
Theorem initial_density_gaussian (N : nat) (dt V0 a k w c x_min x_max : R) :
  valid_configuration N dt a w x_min x_max ->
  exists e : WavePacket N,
    __init__ N dt V0 a k w c x_min x_max = Ok e /\
    forall i : 'I_N,
      let x := nth 0 (x_values e) i in
      (cabs (wave_function e i ord0) ^ 2
       = / sqrt (2 * PI * w ^ 2) * exp (- ((x - c) ^ 2 / (2 * w ^ 2))))%coqR.
Proof.
move=> v; have [_ _ _ _ wpos] := v; have [N1 xm w0] := valid_init v.
eexists; split; first exact: init_ok.
move=> i /=; rewrite mxE /initial_wave_function 2!cabs_sq_mul !cabs_sq_RtoC.
rewrite cabs_sq_cexp_imaginary; first by rewrite /=; to_R; ring.
set x := nth _ _ _; set b := (2 * PI * w ^ 2)%coqR.
have bpos : (0 < b)%coqR.
  by rewrite /b; have := PI_RGT_0; have := pow_lt w 2 wpos; nra.
have -> : (pow_float b (- 0.25) ^ 2 = / sqrt b)%coqR.
  rewrite /pow_float -Rpower_sqrt // -Rpower_Ropp.
  have -> : (- / 2 = - 0.25 + - 0.25)%coqR by lra.
  by rewrite Rpower_plus; ring.
have -> : (exp (- (x - c) ^ 2 / (4 * w ^ 2)) ^ 2
           = exp (- ((x - c) ^ 2 / (2 * w ^ 2))))%coqR.
  have -> : (- ((x - c) ^ 2 / (2 * w ^ 2))
             = - (x - c) ^ 2 / (4 * w ^ 2) + - (x - c) ^ 2 / (4 * w ^ 2))%coqR.
    by field; lra.
  by rewrite exp_plus; ring.
by ring.
Qed.

Lemma initial_density_gaussian_witness :
  valid_configuration 500 5 10 5 (-200) 200 /\
  exists e : WavePacket 500,
    __init__ 500 5 1 10 1 5 (-50) (-200) 200 = Ok e /\
    forall i : 'I_500,
      let x := nth 0 (x_values e) i in
      (cabs (wave_function e i ord0) ^ 2
       = / sqrt (2 * PI * 5 ^ 2) * exp (- ((x - (-50)) ^ 2 / (2 * 5 ^ 2))))%coqR.
Proof.
have v : valid_configuration 500 5 10 5 (-200) 200 by split=> //; lra.
split; [exact: v | exact: (initial_density_gaussian 1 1 (-50) v)].
Defined.

(** ** The animation *)

Lemma evolve_returns_prob_density (N : nat) (w w' : WavePacket N) d :
  evolve_wave_function w = Ok (w', d) -> d = prob_density w'.
Proof. by rewrite /evolve_wave_function; case: ifP => // _ [<- <-]. Qed.

Lemma advance_first (N : nat) (k : nat) (w : WavePacket N) :
  advance k.+1 w = bind (evolve_wave_function w) (fun r => advance k r.1).
Proof.
elim: k => [|k IH].
  rewrite /=; case ev: (evolve_wave_function w) => [[w' d]| |] //=.
  by rewrite (evolve_returns_prob_density ev).
rewrite [LHS]/(bind (advance k.+1 w) _) IH.
by case: (evolve_wave_function w).
Qed.

Section Play.

Import Animation.

Variable N : nat.
Implicit Types (a : WaveAnimation N) (g : generator).

Lemma loop_yield a :
  (current_step a < max_steps a)%N -> total_probability (wave_sim a) <> 0 ->
  loop a = Ok (Some (prob_density (renormalized (wave_sim a))), Suspended,
              after_yield a).
Proof. by move=> lt t0; rewrite /loop lt (evolve_ok t0). Qed.

Lemma play_yield fuel g a data g' a' :
  next g a = Ok (Some data, g', a') ->
  play fuel.+1 g a
  = bind (play fuel g' (update_plot a' data)) (fun rest =>
      Ok ((time_display a', data) :: rest.1.1, rest.1.2, rest.2)).
Proof. by rewrite /= => ->. Qed.

Lemma play_run (n fuel : nat) g a :
  g <> Finished -> live (wave_sim a) ->
  (counted g a + n)%N = max_steps a -> (n < fuel)%N ->
  exists fs a', play fuel g a = Ok (fs, Finished, a') /\ played n a fs a'.
Proof.
elim: n fuel g a => [|n IH] [|fuel] // g a gF la cnt nf.
- exists [::]; rewrite addn0 in cnt.
  case: g gF cnt => //= _ cnt; eexists; rewrite /loop /= cnt ltnn /=;
    (split; first by []); split=> //=;
    by [rewrite Rmult_0_l Rplus_0_r | split=> //; eexists].
- set a0 := if g is Suspended then count_step a else a.
  have nx : next g a = loop a0 by case: g gF cnt @a0.
  have ws0 : wave_sim a0 = wave_sim a by rewrite /a0; case: (g).
  have ms0 : max_steps a0 = max_steps a by rewrite /a0; case: (g).
  have ct0 : current_time a0 = current_time a by rewrite /a0; case: (g).
  have cs0 : current_step a0 = counted g a by rewrite /a0; case: (g).
  have lt0 : (current_step a0 < max_steps a0)%N.
    by rewrite cs0 ms0 -cnt addnS ltnS leq_addr.
  have t0 : total_probability (wave_sim a0) <> 0.
    by rewrite ws0; exact: live_total_probability.
  set d := prob_density (renormalized (wave_sim a0)).
  set a2 := update_plot (after_yield a0) d.
  have [] := IH fuel Suspended a2 _ _ _ nf => //.
  + by rewrite /= ws0; exact: renormalized_live.
  + by rewrite /= cs0 ms0 -cnt addnS addSn.
  move=> fs' [a' [pl [sz [cs ms] ct fo [[dn adv] frames]]]].
  exists ((time_display (after_yield a0), d) :: fs'), a'.
  rewrite (play_yield _ (etrans nx (loop_yield lt0 t0))) pl /=; split=> //.
  have adv1 : evolve_wave_function (wave_sim a)
              = Ok (renormalized (wave_sim a), prob_density (renormalized (wave_sim a))).
    by apply: evolve_ok; rewrite -ws0.
  split.
  + by rewrite /= sz.
  + by rewrite cs ms /= ms0.
  + by rewrite ct /= ct0 ws0 /=; case: (n) => [|m]; rewrite /=; ring.
  + exact: fo.
  + split; first by exists dn; rewrite advance_first adv1 -ws0; exact: adv.
    case=> [_|j jn].
      rewrite [nth _ _ _]/= [(_, _).1]/= [(_, _).2]/= ct0 ws0 Rmult_1_l.
      by split=> //; exists (renormalized (wave_sim a)); rewrite /= adv1 /d ws0.
    have [tj [wj advj]] := frames j jn; split.
      rewrite [nth _ _ _]/= tj /= ct0 ws0 /=.
      by congr (Some (_ * _)%coqR); case: (j) => [|m]; rewrite /=; ring.
    by exists wj; rewrite advance_first adv1 -ws0; exact: advj.
Qed.

End Play.

(** X8.  A generator of [time_generator], drawn to its end on an animation
    whose wave packet is live and whose step counter does not exceed
    [max_steps], yields exactly [max_steps - current_step] frames and then
    stops: the step counter ends at [max_steps], the time has advanced by
    that many time steps, the figure is closed, and frame [j] is the density
    after [j + 1] further steps of the wave packet, shown with the elapsed
    time of [j + 1] time steps. *)
Theorem time_generator_frames (N : nat) (a : Animation.WaveAnimation N) :
  live (Animation.wave_sim a) ->
  (Animation.current_step a <= Animation.max_steps a)%N ->
  let n := (Animation.max_steps a - Animation.current_step a)%N in
  exists fs a',
    Animation.play n.+1 Animation.Created a = Ok (fs, Animation.Finished, a') /\
    played n a fs a'.
Proof.
move=> la le n; apply: play_run => //.
by rewrite /= subnKC.
Qed.


Lemma time_generator_frames_witness :
  exists fs a',
    Animation.play 101 Animation.Created notebook_animation
    = Ok (fs, Animation.Finished, a') /\
    played 100 notebook_animation fs a'.
Proof.
have la : live (Animation.wave_sim notebook_animation).
  exact/renormalized_live/constructed_live.
exact: (time_generator_frames la (leq0n _)).
Defined.

(** X9.  The animation of a wave packet constructed from a valid
    configuration, with [max_steps = M]: [WaveAnimation.__init__] succeeds
    and has already stepped the wave packet once, so that the generator
    yields [M] frames of which frame [j] is the density after [j + 2] steps,
    shown with the elapsed time of [j + 1] time steps; at the end the
    counter is [M], the time [M] time steps, the figure closed, and the wave
    packet has made [M + 1] steps. *)
Theorem animation_frames (N : nat) (dt V0 a k w c x_min x_max : R) (M : nat) :
  valid_configuration N dt a w x_min x_max ->
  exists (e : WavePacket N) (anim anim' : Animation.WaveAnimation N) fs,
    [/\ __init__ N dt V0 a k w c x_min x_max = Ok e,
        Animation.__init__ e M = Ok anim,
        Animation.play M.+1 Animation.Created anim
        = Ok (fs, Animation.Finished, anim'),
        size fs = M
      & forall j, (j < M)%N ->
          (nth (None, 0) fs j).1 = Some (INR j.+1 * dt * 2.419e-2)%coqR /\
          exists wj, advance j.+2 e = Ok (wj, (nth (None, 0) fs j).2)] /\
    [/\ Animation.current_step anim' = M,
        Animation.current_time anim' = (INR M * dt)%coqR,
        Animation.fig_open anim' = false
      & exists d, advance M.+1 e = Ok (Animation.wave_sim anim', d)].
Proof.
move=> /valid_init [N1 xm w0].
set e := constructed N dt V0 a k w c x_min x_max.
have le : live e by exact: constructed_live (ltnW N1).
have t0 := live_total_probability le.
have ev := evolve_ok t0.
set anim : Animation.WaveAnimation N :=
  {| Animation.current_time := 0%coqR;
     Animation.wave_sim := renormalized e;
     Animation.time_display := None;
     Animation.prob_line := prob_density (renormalized e);
     Animation.max_steps := M;
     Animation.current_step := 0;
     Animation.fig_open := true |}.
have la : live (Animation.wave_sim anim) by exact: renormalized_live.
have [fs [anim' [pl [sz [cs _] ct fo [[d adv] frames]]]]] :
  exists fs a', Animation.play M.+1 Animation.Created anim
                = Ok (fs, Animation.Finished, a') /\ played M anim fs a'.
  by apply: play_run => //=; rewrite add0n.
exists e, anim, anim', fs; split; split=> //.
- exact: init_ok.
- by rewrite /Animation.__init__ ev.
- move=> j jM; have [tj [wj advj]] := frames j jM; split.
    by rewrite tj /=; congr (Some _); ring.
  by exists wj; rewrite advance_first ev.
- by rewrite ct /=; ring.
- by exists d; rewrite advance_first ev.
Qed.

Lemma animation_frames_witness :
  valid_configuration 500 5 10 5 (-200) 200 /\
  exists (e : WavePacket 500) (anim anim' : Animation.WaveAnimation 500) fs,
    [/\ __init__ 500 5 1 10 1 5 (-50) (-200) 200 = Ok e,
        Animation.__init__ e 100 = Ok anim,
        Animation.play 101 Animation.Created anim
        = Ok (fs, Animation.Finished, anim'),
        size fs = 100%N
      & forall j, (j < 100)%N ->
          (nth (None, 0) fs j).1 = Some (INR j.+1 * 5 * 2.419e-2)%coqR /\
          exists wj, advance j.+2 e = Ok (wj, (nth (None, 0) fs j).2)] /\
    [/\ Animation.current_step anim' = 100%N,
        Animation.current_time anim' = (INR 100 * 5)%coqR,
        Animation.fig_open anim' = false
      & exists d, advance 101 e = Ok (Animation.wave_sim anim', d)].
Proof.
have v : valid_configuration 500 5 10 5 (-200) 200 by split=> //; lra.
split; [exact: v | exact: (animation_frames 1 1 (-50) 100 v)].
Defined.

(** ** Rescaling the wave function *)

Lemma cabs_ge0 (c : complex) : (0 <= cabs c)%coqR.
Proof. exact: sqrt_pos. Qed.

Lemma cabs_gt0 (c : complex) : c <> 0 -> (0 < cabs c)%coqR.
Proof.
move=> c0; case: (cabs_ge0 c) => // /esym ca0; case: c0.
by apply: cabs_sq_eq0; rewrite ca0; to_R; ring.
Qed.


Lemma phase_neq0 (c : complex) : c <> 0 -> phase c <> 0.
Proof.
move=> c0 /eqP; rewrite mulf_eq0 invr_eq0 fmorph_eq0 => /orP [/eqP //|/eqP ca0].
by have := cabs_gt0 c0; rewrite ca0; to_R; lra.
Qed.

Lemma cabs_phase (c : complex) : c <> 0 -> cabs (phase c) = 1%coqR.
Proof.
move=> c0; have cpos := cabs_gt0 c0.
have sq : (cabs (phase c) ^ 2 = 1)%coqR.
  have cn0 : (cabs c <> 0)%coqR by lra.
  by rewrite /phase (cabs_sq_div _ cn0); field.
have := cabs_ge0 (phase c); move: sq; set x := cabs _ => sq x0.
by nra.
Qed.

Lemma phase_phase (c : complex) : c <> 0 -> phase (phase c) = phase c.
Proof.
move=> c0; rewrite {1}/phase cabs_phase //.
by have -> : RtoC 1%coqR = 1 by []; rewrite divr1.
Qed.

Lemma pow_float_scale (c : complex) (t : R) :
  c <> 0 -> (0 < t)%coqR ->
  pow_float (cabs c ^ 2 * t)%coqR 0.5 = (cabs c * pow_float t 0.5)%coqR.
Proof.
move=> c0 tpos; have cpos := cabs_gt0 c0.
have c2pos : (0 < cabs c ^ 2)%coqR by apply: pow_lt.
rewrite /pow_float -Rpower_mult_distr //; congr (_ * _)%coqR.
have -> : (0.5 = / 2)%coqR by lra.
by rewrite Rpower_sqrt // sqrt_pow2 //; lra.
Qed.

Lemma renormalized_rescaled (N : nat) (c : complex) (w : WavePacket N) :
  c <> 0 -> total_probability w <> 0 ->
  renormalized (rescaled c w) = rescaled (phase c) (renormalized w).
Proof.
move=> c0 t0; have tpos := total_probability_gt0 t0.
have cpos := cabs_gt0 c0.
have c2 : (cabs c ^ 2 <> 0)%coqR by move=> /cabs_sq_eq0.
rewrite /renormalized /rescaled /= total_probability_rescaled evolved_rescaled.
congr (mkWavePacket _ _ _ _ _ _ _ _ _ _ _ _); apply/matrixP => i j.
- rewrite [LHS]mxE [RHS]mxE abs_squared_scale; field.
  by split; [exact: t0 | lra].
- set E := evolved w; rewrite !mxE pow_float_scale // /phase.
  have -> : RtoC (cabs c * pow_float (total_probability w) 0.5)%coqR
            = RtoC (cabs c) * RtoC (pow_float (total_probability w) 0.5) by rewrite -rmorphM.
  by rewrite invfM mulrACA.
Qed.

Lemma total_probability_rescaled_neq0 (N : nat) (c : complex) (w : WavePacket N) :
  c <> 0 -> total_probability w <> 0 -> total_probability (rescaled c w) <> 0.
Proof.
move=> c0 t0; rewrite total_probability_rescaled.
by move=> /Rmult_integral [/cabs_sq_eq0|].
Qed.

Lemma evolve_okE (N : nat) (w w' : WavePacket N) d :
  evolve_wave_function w = Ok (w', d) ->
  [/\ total_probability w <> 0, w' = renormalized w
    & d = prob_density (renormalized w)].
Proof.
have [t0|t0] := Req_dec_T (total_probability w) 0; first by rewrite evolve_nan.
by rewrite evolve_ok // => -[<- <-].
Qed.

(** X6.  The returned densities do not depend on the scale of the wave
    function: if a run of [k + 1] steps from a state succeeds, the same run
    from the state with its wave function multiplied by a complex number
    [c] other than [0] succeeds too and returns the same density at its
    last step, hence at every step; the final states differ by the phase
    of [c] only.  In particular the normalization factor of the initial
    packet has no effect on any returned density. *)
Theorem density_scale_invariant
    (N : nat) (c : complex) (k : nat) (w wk : WavePacket N) (d : 'cV[R]_N) :
  c <> 0 ->
  advance k.+1 w = Ok (wk, d) ->
  advance k.+1 (rescaled c w) = Ok (rescaled (phase c) wk, d).
Proof.
elim: k c w => [|k IH] c w c0.
  rewrite !advance_first /=.
  case ev: (evolve_wave_function w) => [[w1 d1]| |] //= -[<- <-].
  have [t0 -> _] := evolve_okE ev.
  rewrite (evolve_ok (total_probability_rescaled_neq0 c0 t0)).
  by rewrite renormalized_rescaled.
rewrite advance_first [in X in _ -> X]advance_first.
case ev: (evolve_wave_function w) => [[w1 d1]| |] //= adv.
have [t0 e1 _] := evolve_okE ev; rewrite e1 in adv.
rewrite (evolve_ok (total_probability_rescaled_neq0 c0 t0)).
rewrite -[bind _ _]/(advance k.+1 (renormalized (rescaled c w))).
rewrite renormalized_rescaled // (IH _ _ (phase_neq0 c0) adv).
by rewrite phase_phase.
Qed.

Lemma density_scale_invariant_witness :
  exists (wk : WavePacket 500) (d : 'cV[R]_500),
    [/\ Ci <> 0, advance 100 notebook_engine = Ok (wk, d)
      & advance 100 (rescaled Ci notebook_engine)
        = Ok (rescaled (phase Ci) wk, d)].
Proof.
have c0 : Ci <> 0 by case=> /R1_neq_R0.
have [wk [adv _ _ _]] :=
  advance_live 99 (constructed_live 5 1 10 1 5 (-50) (-200) 200
                     (isT : (0 < 500)%N)).
exists wk, (prob_density wk); split=> //.
exact: (density_scale_invariant c0 adv).
Defined.
